(** * The voice-assistant home screen (src/screens/home.screen.tsx)

    A shallow embedding of the [HomeScreen] component: its React state, the
    asynchronous handlers [startRecording], [stopRecording],
    [sendAudioToWhisper], [sendToGpt] and [speakText], the controls its
    render function offers, and the event loop that runs one handler after
    another.

    Handlers are functions in a small state-and-log monad ([Task]): they
    thread a [World] (the React state, a clock in milliseconds, the pending
    timers, the queued utterances) and append every externally visible
    action to a log of [Effect]s.  The platform and the two HTTP endpoints
    are scripted: every handler takes the replies it is going to receive as
    an argument, so a theorem quantified over the script covers every
    behaviour of the outside world. *)

From Stdlib Require Import String List NArith Bool Lia DecimalString.
Import ListNotations.

Open Scope string_scope.
Open Scope list_scope.
Open Scope N_scope.

(** ** Data model *)

(** The handle of an [Audio.Recording]; [getURI] is all the screen reads. *)
Record AudioRecording := mkRecording { getURI : option string }.

(** The six [useState] cells of [HomeScreen] (lines 24-29). *)
Record State := mkState {
  text : string;
  isRecording : bool;
  loading : bool;
  recording : option AudioRecording;
  AIResponse : bool;
  AISpeaking : bool
}.

Definition initial_state : State :=
  mkState "" false false None false false.

Definition setText (v : string) (s : State) : State :=
  mkState v (isRecording s) (loading s) (recording s) (AIResponse s) (AISpeaking s).
Definition setIsRecording (v : bool) (s : State) : State :=
  mkState (text s) v (loading s) (recording s) (AIResponse s) (AISpeaking s).
Definition setLoading (v : bool) (s : State) : State :=
  mkState (text s) (isRecording s) v (recording s) (AIResponse s) (AISpeaking s).
Definition setRecording (v : AudioRecording) (s : State) : State :=
  mkState (text s) (isRecording s) (loading s) (Some v) (AIResponse s) (AISpeaking s).
Definition setAIResponse (v : bool) (s : State) : State :=
  mkState (text s) (isRecording s) (loading s) (recording s) v (AISpeaking s).
Definition setAISpeaking (v : bool) (s : State) : State :=
  mkState (text s) (isRecording s) (loading s) (recording s) (AIResponse s) v.

(** Everything a handler does to the outside world, in program order. *)
Inductive Effect : Type :=
| Alert (title message : string)
| ConsoleError (message : string)
| ConsoleWarn (message : string)
| Delay (ms : N)
| RequestPermissions
| SetAudioMode (allowsRecordingIOS : bool)
| CreateRecording
| StopAndUnload
| PostTranscription (uri : string)
| PostChat (content : string)
| SetTimeout (ms : N)
| ClearTimeout
| Abort
| Speak (utterance : string).

(** A timer registered with [setTimeout] and not yet fired or cleared. *)
Record Timer := mkTimer { timer_id : N; deadline : N }.

Record World := mkWorld {
  ui : State;
  clock : N;
  timers : list Timer;
  next_timer : N;
  utterances : nat;
  history : list State
}.

Definition initial_world : World :=
  mkWorld initial_state 0 [] 0 0%nat [].

(** ** The monad of handlers *)

Record Outcome (A : Type) := mkOutcome {
  value : A;
  world : World;
  effects : list Effect
}.
Arguments mkOutcome {A} _ _ _.
Arguments value {A} _.
Arguments world {A} _.
Arguments effects {A} _.

Definition Task (A : Type) : Type := World -> Outcome A.

Definition ret {A} (a : A) : Task A := fun w => mkOutcome a w [].

(** [after log r]: the outcome [r], reached after [log] was written. *)
Definition after {A} (log : list Effect) (r : Outcome A) : Outcome A :=
  match r with
  | mkOutcome a w log' => mkOutcome a w (log ++ log')
  end.

Definition bind {A B} (c : Task A) (k : A -> Task B) : Task B :=
  fun w =>
    match c w with
    | mkOutcome a w1 log => after log (k a w1)
    end.

Declare Scope task_scope.
Delimit Scope task_scope with task.
Notation "x <- c ;; k" := (bind c (fun x => k))
  (at level 61, c at next level, right associativity) : task_scope.
Notation "c ;; k" := (bind c (fun _ => k))
  (at level 61, right associativity) : task_scope.
Open Scope task_scope.

Definition emit (e : Effect) : Task unit :=
  fun w => mkOutcome tt w [e].

Definition update (f : State -> State) : Task unit :=
  fun w => mkOutcome tt
    (mkWorld (f (ui w)) (clock w) (timers w) (next_timer w) (utterances w) (history w)) [].

Definition read {A} (f : World -> A) : Task A :=
  fun w => mkOutcome (f w) w [].

(** [await]: the handler is suspended for [ms] milliseconds; meanwhile the
    screen shows the state committed so far, which [history] records. *)
Definition await (ms : N) : Task unit :=
  fun w => mkOutcome tt
    (mkWorld (ui w) (clock w + ms) (timers w) (next_timer w) (utterances w)
             (history w ++ [ui w])) [].

(** [const delay = (ms) => new Promise((resolve) => setTimeout(resolve, ms))] *)
Definition delay (ms : N) : Task unit :=
  emit (Delay ms) ;; await ms.

(** ** Transcription client: [sendAudioToWhisper] (lines 102-151) *)

Inductive WhisperResult : Type :=
| WhisperOk (data_text : string)   (* the request resolved; [response.data.text], a string *)
| Whisper429                       (* an axios error whose response status is 429 *)
| WhisperError.                    (* anything else thrown inside the [try] *)

Record WhisperReply := mkWhisperReply {
  whisper_latency : N;
  whisper_result : WhisperResult
}.

(** The reply the endpoint gives to the n-th upload attempt of one call. *)
Definition WhisperEndpoint : Type := N -> WhisperReply.

(** [axios.post("https://api.openai.com/v1/audio/transcriptions", formData, ...)]
    with the fixed form fields [file] (audio/wav, recording.wav) and
    [model] = whisper-1. *)
Definition post_transcription (uri : string) (reply : WhisperReply) : Task WhisperResult :=
  emit (PostTranscription uri) ;;
  await (whisper_latency reply) ;;
  ret (whisper_result reply).

Definition decimal (n : N) : string := NilEmpty.string_of_uint (N.to_uint n).

Definition default_retries : N := 3.
Definition globalDelay : N := 500.

(** The [for (let attempt = 1; attempt <= retries; attempt++)] loop.
    [remaining] counts the iterations the loop condition still allows
    ([retries + 1 - attempt]); at [0] the condition is false and control
    reaches the final [return null].  A [break] also reaches it. *)
Fixpoint for_attempts (uri : string) (retries : N) (endpoint : WhisperEndpoint)
    (remaining : nat) (attempt : N) : Task (option string) :=
  match remaining with
  | O => ret None
  | S remaining' =>
      response <- post_transcription uri (endpoint attempt) ;;
      match response with
      | WhisperOk data_text => ret (Some data_text)
      | Whisper429 =>
          if attempt =? retries then
            emit (Alert "Rate Limit Reached"
                        "Too many requests. Please wait a moment and try again.") ;;
            ret None
          else
            let backoffTime := 2 ^ attempt * 1000 in
            emit (ConsoleWarn ("Rate limit reached. Retrying in "
                               ++ decimal (backoffTime / 1000) ++ " seconds...")) ;;
            delay backoffTime ;;
            for_attempts uri retries endpoint remaining' (attempt + 1)
      | WhisperError =>
          emit (ConsoleError "Whisper API Error:") ;;
          emit (Alert "Error" "Failed to transcribe audio.") ;;
          ret None
      end
  end.

Definition sendAudioToWhisper (uri : string) (retries : N) (endpoint : WhisperEndpoint)
  : Task (option string) :=
  delay globalDelay ;;
  for_attempts uri retries endpoint (N.to_nat retries) 1.

(** ** Speech output: [speakText] (lines 203-208) *)

(** [Speech.speak(text, { onDone })]: the utterance is queued with the
    platform; its [onDone] callback is run later by the event loop. *)
Definition speech_speak (utterance : string) : Task unit :=
  fun w => mkOutcome tt
    (mkWorld (ui w) (clock w) (timers w) (next_timer w) (S (utterances w)) (history w))
    [Speak utterance].

Definition speakText (utterance : string) : Task unit :=
  update (setAISpeaking true) ;;
  speech_speak utterance.

(** ** Response client: [sendToGpt] (lines 154-201) *)

Inductive ChatResult : Type :=
| ChatOk (choices : list string)   (* [message.content] of each of [response.data.choices] *)
| ChatError.                       (* the request rejects on its own *)

(** [chat_latency = None]: the endpoint never answers. *)
Record ChatReply := mkChatReply {
  chat_latency : option N;
  chat_result : ChatResult
}.

Inductive ChatSettled : Type :=
| Resolved (choices : list string)
| Rejected
| Canceled.

Definition setTimeout (ms : N) : Task Timer :=
  fun w =>
    let t := mkTimer (next_timer w) (clock w + ms) in
    mkOutcome t
      (mkWorld (ui w) (clock w) (timers w ++ [t]) (next_timer w + 1) (utterances w) (history w))
      [SetTimeout ms].

Definition drop_timer (t : Timer) (w : World) : World :=
  mkWorld (ui w) (clock w)
    (filter (fun t' => negb (timer_id t' =? timer_id t)) (timers w))
    (next_timer w) (utterances w) (history w).

Definition clearTimeout (t : Timer) : Task unit :=
  fun w => mkOutcome tt (drop_timer t w) [ClearTimeout].

(** The callback given to [setTimeout] at lines 157-161. *)
Definition timeout_callback : Task unit :=
  emit Abort ;;
  update (setLoading false) ;;
  emit (Alert "Timeout" "The server took too long to respond.").

(** [axios.post("https://api.openai.com/v1/chat/completions", ..., { signal })]
    with model gpt-4, the fixed system message and [content] as the only
    user message.  The request settles with the endpoint's reply when that
    arrives before the handler's own timer is due; otherwise the event loop
    runs the timer's callback at the deadline, whose [controller.abort()]
    makes the pending request reject. *)
Definition post_chat (content : string) (own : Timer) (reply : ChatReply) : Task ChatSettled :=
  emit (PostChat content) ;;
  now <- read clock ;;
  let expire : Task ChatSettled :=
    await (deadline own - now) ;;
    (fun w => mkOutcome tt (drop_timer own w) []) ;;
    timeout_callback ;;
    ret Canceled in
  match chat_latency reply with
  | Some latency =>
      if now + latency <? deadline own then
        await latency ;;
        ret (match chat_result reply with
             | ChatOk choices => Resolved choices
             | ChatError => Rejected
             end)
      else expire
  | None => expire
  end.

Definition gpt_timeout : N := 10000.

Definition sendToGpt (inputText : string) (reply : ChatReply) : Task unit :=
  let on_catch : Task unit :=
    emit (ConsoleError "Error sending text to GPT:") ;;
    update (setLoading false) ;;
    emit (Alert "Error" "Failed to get AI response.") in
  timeout <- setTimeout gpt_timeout ;;
  delay globalDelay ;;
  response <- post_chat inputText timeout reply ;;
  match response with
  | Resolved choices =>
      clearTimeout timeout ;;
      match choices with
      | aiResponse :: _ =>
          update (setText aiResponse) ;;
          update (setAIResponse true) ;;
          update (setLoading false) ;;
          speakText aiResponse ;;
          await 0
      | [] => on_catch      (* [choices[0]] is undefined: TypeError *)
      end
  | Rejected | Canceled => on_catch
  end.

(** ** Recorder controller (lines 34-100) *)

(** JavaScript truthiness of a possibly missing string: [undefined],
    [null] and the empty string are falsy.  [truthy v] is the string the
    guarded branch goes on with. *)
Definition truthy (v : option string) : option string :=
  match v with
  | Some s => if String.eqb s "" then None else Some s
  | None => None
  end.

Inductive PermissionReply : Type :=
| PermissionGranted
| PermissionDenied
| PermissionThrows.

(** Platform calls ([Audio.*], [recording.*]) are awaited but take no
    modelled time. *)
Definition getMicrophonePermission (reply : PermissionReply) : Task bool :=
  emit RequestPermissions ;;
  await 0 ;;
  match reply with
  | PermissionGranted => ret true
  | PermissionDenied =>
      emit (Alert "Permission" "Please grant permission to access the microphone.") ;;
      ret false
  | PermissionThrows =>
      emit (ConsoleError "Microphone permission error:") ;;
      emit (Alert "Error" "Failed to get microphone permission.") ;;
      ret false
  end.

(** What the platform answers during one run of [startRecording]. *)
Record StartScript := mkStartScript {
  permission : PermissionReply;
  record_mode_ok : bool;            (* [Audio.setAudioModeAsync] resolves *)
  created : option AudioRecording        (* [Audio.Recording.createAsync]; [None]: it throws *)
}.

Section Screen.

(** [Constants.expoConfig?.extra?.EXPO_PUBLIC_OPENAI_API_KEY] (line 32). *)
Variable OPENAI_API_KEY : option string.

Definition startRecording (script : StartScript) : Task unit :=
  let on_catch : Task unit :=
    emit (ConsoleError "Failed to start recording:") ;;
    emit (Alert "Error" "Failed to start recording.") in
  match truthy OPENAI_API_KEY with
  | None => emit (Alert "Configuration Error" "OpenAI API Key is missing.")
  | Some _ =>
    hasPermission <- getMicrophonePermission (permission script) ;;
    if negb hasPermission then ret tt
    else
      emit (SetAudioMode true) ;;
      await 0 ;;
      if record_mode_ok script then
        update (setIsRecording true) ;;
        emit CreateRecording ;;
        await 0 ;;
        match created script with
        | Some r => update (setRecording r)
        | None => on_catch
        end
      else on_catch
  end.

End Screen.

(** What the platform and the two endpoints answer during one run of
    [stopRecording]. *)
Record StopScript := mkStopScript {
  stop_ok : bool;                   (* [recording.stopAndUnloadAsync] resolves *)
  playback_mode_ok : bool;          (* [Audio.setAudioModeAsync] resolves *)
  whisper : WhisperEndpoint;
  chat : ChatReply
}.

Definition stopRecording (script : StopScript) : Task unit :=
  let on_catch : Task unit :=
    emit (ConsoleError "Failed to stop recording:") ;;
    emit (Alert "Error" "Failed to process recording.") ;;
    update (setLoading false) in
  (* the [recording] this closure was rendered with *)
  rec <- read (fun w => recording (ui w)) ;;
  update (setIsRecording false) ;;
  update (setLoading true) ;;
  stopped <- match rec with
             | Some _ => emit StopAndUnload ;; await 0 ;; ret (stop_ok script)
             | None => await 0 ;; ret true
             end ;;
  if negb stopped then on_catch
  else
    emit (SetAudioMode false) ;;
    await 0 ;;
    if negb (playback_mode_ok script) then on_catch
    else
      let uri := match rec with Some r => getURI r | None => None end in
      match truthy uri with
      | None => on_catch              (* [throw new Error("No recording URI found.")] *)
      | Some uri =>
          transcript <- sendAudioToWhisper uri default_retries (whisper script) ;;
          match truthy transcript with
          | Some transcript =>
              update (setText transcript) ;;
              sendToGpt transcript (chat script)
          | None => update (setLoading false)
          end
      end.

(** ** The rendered controls (lines 210-357) *)

Inductive Control : Type :=
| BackControl
| MicrophoneControl
| StopControl
| RegenerateControl
| ReplayControl.

(** The pressable elements of the JSX tree, in document order.  The
    loading animation is wrapped in a [TouchableOpacity] without
    [onPress], so it offers nothing. *)
Definition render (s : State) : list Control :=
  (if AIResponse s then [BackControl] else [])
  ++ (if loading s then []
      else if negb (isRecording s) then
             if AIResponse s then [] else [MicrophoneControl]
           else [StopControl])
  ++ (if AIResponse s then [RegenerateControl; ReplayControl] else []).

Definition Control_eqb (a b : Control) : bool :=
  match a, b with
  | BackControl, BackControl
  | MicrophoneControl, MicrophoneControl
  | StopControl, StopControl
  | RegenerateControl, RegenerateControl
  | ReplayControl, ReplayControl => true
  | _, _ => false
  end.

Definition rendered (c : Control) (s : State) : bool :=
  existsb (Control_eqb c) (render s).

(** The [onPress] of the back arrow (lines 245-249). *)
Definition pressBack : Task unit :=
  update (setIsRecording false) ;;
  update (setAIResponse false) ;;
  update (setText "").

(** [onPress={() => sendToGpt(text)}] (line 348). *)
Definition pressRegenerate (reply : ChatReply) : Task unit :=
  shown <- read (fun w => text (ui w)) ;;
  sendToGpt shown reply.

(** [onPress={() => speakText(text)}] (line 351). *)
Definition pressReplay : Task unit :=
  shown <- read (fun w => text (ui w)) ;;
  speakText shown.

(** [onDone: () => setAISpeaking(false)], run when an utterance ends. *)
Definition speech_done : Task unit :=
  (fun w => mkOutcome tt
     (mkWorld (ui w) (clock w) (timers w) (next_timer w) (pred (utterances w)) (history w))
     []) ;;
  update (setAISpeaking false).

(** ** The event loop *)

Fixpoint run_callbacks (due : list Timer) : Task unit :=
  match due with
  | [] => ret tt
  | _ :: rest => timeout_callback ;; run_callbacks rest
  end.

Definition is_due (now : N) (t : Timer) : bool := deadline t <=? now.

(** [ms] milliseconds pass with no handler running; the timers that have
    come due fire in the order they were registered.  A handler runs its
    own timer itself ([post_chat]); a timer left pending by an earlier call
    is run here, once that call's handler has returned. *)
Definition elapse (ms : N) : Task unit :=
  fun w =>
    let now := clock w + ms in
    run_callbacks (filter (is_due now) (timers w))
      (mkWorld (ui w) now (filter (fun t => negb (is_due now t)) (timers w))
               (next_timer w) (utterances w) (history w)).

Inductive Event : Type :=
| PressMicrophone (script : StartScript)
| PressStop (script : StopScript)
| PressBack
| PressRegenerate (reply : ChatReply)
| PressReplay
| SpeechDone
| Elapse (ms : N).

Section Controller.

Variable OPENAI_API_KEY : option string.

(** A control can be pressed only while it is rendered; [onDone] needs a
    queued utterance. *)
Definition enabled (e : Event) (w : World) : bool :=
  match e with
  | PressMicrophone _ => rendered MicrophoneControl (ui w)
  | PressStop _ => rendered StopControl (ui w)
  | PressBack => rendered BackControl (ui w)
  | PressRegenerate _ => rendered RegenerateControl (ui w)
  | PressReplay => rendered ReplayControl (ui w)
  | SpeechDone => negb (Nat.eqb (utterances w) 0)
  | Elapse _ => true
  end.

Definition handler (e : Event) : Task unit :=
  match e with
  | PressMicrophone script => startRecording OPENAI_API_KEY script
  | PressStop script => stopRecording script
  | PressBack => pressBack
  | PressRegenerate reply => pressRegenerate reply
  | PressReplay => pressReplay
  | SpeechDone => speech_done
  | Elapse ms => elapse ms
  end.

(** Handlers run one at a time, each to completion. *)
Inductive reachable : World -> Prop :=
| reachable_initial : reachable initial_world
| reachable_step (w : World) (e : Event) :
    reachable w -> enabled e w = true -> reachable (world (handler e w)).

(** Running a list of events from a world, collecting the log; [None] when
    an event is not enabled where it is scheduled. *)
Fixpoint run (es : list Event) (w : World) : option (World * list Effect) :=
  match es with
  | [] => Some (w, [])
  | e :: rest =>
      if enabled e w then
        let r := handler e w in
        match run rest (world r) with
        | Some (w', log) => Some (w', effects r ++ log)
        | None => None
        end
      else None
  end.

End Controller.

(** ** Reading logs and states *)

(** The user messages of the chat-completion requests in a log. *)
Fixpoint chat_requests (log : list Effect) : list string :=
  match log with
  | [] => []
  | PostChat content :: rest => content :: chat_requests rest
  | _ :: rest => chat_requests rest
  end.

(** The locators of the uploads to the transcription endpoint in a log. *)
Fixpoint uploads (log : list Effect) : list string :=
  match log with
  | [] => []
  | PostTranscription uri :: rest => uri :: uploads rest
  | _ :: rest => uploads rest
  end.

(** The backoff waits in a log, in milliseconds.  (A [Delay] of
    [globalDelay] is the warm-up wait of a client, not a backoff.) *)
Fixpoint waits (log : list Effect) : list N :=
  match log with
  | [] => []
  | Delay ms :: rest => if ms =? globalDelay then waits rest else ms :: waits rest
  | _ :: rest => waits rest
  end.

Definition retry_warning (attempt : N) : Effect :=
  ConsoleWarn ("Rate limit reached. Retrying in "
               ++ decimal (2 ^ attempt * 1000 / 1000) ++ " seconds...").

(** [rounds] consecutive rate-limited attempts, the first one numbered
    [attempt]: each is an upload, the warning, and the wait before the
    next attempt. *)
Fixpoint backoff_rounds (uri : string) (attempt : N) (rounds : nat) : list Effect :=
  match rounds with
  | O => []
  | S rounds' =>
      PostTranscription uri :: retry_warning attempt :: Delay (2 ^ attempt * 1000)
      :: backoff_rounds uri (attempt + 1) rounds'
  end.

Definition rate_limit_notice : Effect :=
  Alert "Rate Limit Reached" "Too many requests. Please wait a moment and try again.".
Definition transcription_failure_notice : Effect :=
  Alert "Error" "Failed to transcribe audio.".
Definition configuration_notice : Effect :=
  Alert "Configuration Error" "OpenAI API Key is missing.".
Definition timeout_notice : Effect :=
  Alert "Timeout" "The server took too long to respond.".
Definition generation_failure_notice : Effect :=
  Alert "Error" "Failed to get AI response.".
Definition start_failure_notice : Effect :=
  Alert "Error" "Failed to start recording.".

(** Modelled from the spec: the [InteractionState] of section 3 and its
    reading of the four flags (section 4.5); the source has no such type,
    only the flags. *)
Inductive InteractionState : Type :=
| Idle
| Recording
| Processing
| ResponseReady
| Speaking.

Definition interaction_state (s : State) : option InteractionState :=
  match isRecording s, loading s, AIResponse s, AISpeaking s with
  | false, false, false, false => Some Idle
  | true, false, false, false => Some Recording
  | false, true, false, false => Some Processing
  | false, false, true, false => Some ResponseReady
  | false, false, true, true => Some Speaking
  | _, _, _, _ => None
  end.

(** The state the screen displays: [render] reads [isRecording],
    [loading] and [AIResponse] only, so [AISpeaking] tells Speaking from
    ResponseReady and is not looked at elsewhere. *)
Definition displayed_state (s : State) : option InteractionState :=
  match isRecording s, loading s, AIResponse s with
  | false, false, false => Some Idle
  | true, false, false => Some Recording
  | false, true, false => Some Processing
  | false, false, true => Some (if AISpeaking s then Speaking else ResponseReady)
  | _, _, _ => None
  end.

(** The world after [rounds] rate-limited attempts: time has passed for
    each upload and each backoff wait. *)
Fixpoint backoff_world (endpoint : WhisperEndpoint) (attempt : N) (rounds : nat)
    (w : World) : World :=
  match rounds with
  | O => w
  | S rounds' =>
      backoff_world endpoint (attempt + 1) rounds'
        (world ((await (whisper_latency (endpoint attempt)) ;;
                 await (2 ^ attempt * 1000)) w))
  end.

(** Timer identifiers are handed out in increasing order, so the pending
    ones are below the next identifier. *)
Definition timers_fresh (w : World) : Prop :=
  Forall (fun t => timer_id t < next_timer w) (timers w).

(** What the callbacks of the timers in [due] write when they fire. *)
Definition expiry_log (due : list Timer) : list Effect :=
  flat_map (fun _ => [Abort; timeout_notice]) due.

(** ** Specifications of tasks *)

(** A state the screen can show without two of the rendering flags set. *)
Definition shown (s : State) : Prop := displayed_state s <> None.

Definition flags (r l a : bool) (s : State) : Prop :=
  isRecording s = r /\ loading s = l /\ AIResponse s = a.

(** Between two handlers: nothing is loading, and the screen is not both
    recording and showing a response. *)
Definition settled (s : State) : Prop :=
  loading s = false /\ (isRecording s && AIResponse s) = false.

(** Where [sendToGpt] is called from: Processing, or with a response on
    display. *)
Definition answering (s : State) : Prop :=
  isRecording s = false /\ (loading s && AIResponse s) = false.

(** [triple P c Q]: started in a state satisfying [P], with only
    [shown] states in the history, the task [c] ends with [Q] and has
    suspended in [shown] states only. *)
Definition triple {A} (P : State -> Prop) (c : Task A) (Q : A -> State -> Prop)
  : Prop :=
  forall w,
    P (ui w) -> Forall shown (history w) ->
    Q (value (c w)) (ui (world (c w))) /\ Forall shown (history (world (c w))).

(** ** Further readings of logs and worlds *)

(** The notices of a log: its [Alert.alert] calls, in order. *)
Fixpoint alerts (log : list Effect) : list Effect :=
  match log with
  | [] => []
  | Alert title message :: rest => Alert title message :: alerts rest
  | _ :: rest => alerts rest
  end.

(** The utterances handed to [Speech.speak] in a log. *)
Fixpoint spoken (log : list Effect) : list string :=
  match log with
  | [] => []
  | Speak utterance :: rest => utterance :: spoken rest
  | _ :: rest => spoken rest
  end.

Definition permission_notice : Effect :=
  Alert "Permission" "Please grant permission to access the microphone.".
Definition permission_failure_notice : Effect :=
  Alert "Error" "Failed to get microphone permission.".
Definition stop_failure_notice : Effect :=
  Alert "Error" "Failed to process recording.".

(** [startRecording] gets as far as opening the microphone. *)
Definition ready (key : option string) (script : StartScript) : bool :=
  match truthy key, permission script with
  | Some _, PermissionGranted => record_mode_ok script
  | _, _ => false
  end.

(** The controls each displayed state offers. *)
Definition controls_of (state : InteractionState) : list Control :=
  match state with
  | Idle => [MicrophoneControl]
  | Recording => [StopControl]
  | Processing => []
  | ResponseReady | Speaking => [BackControl; RegenerateControl; ReplayControl]
  end.

(** [preserves I c]: the task [c] leaves the world in [I] when started
    in [I]. *)
Definition preserves {A} (I : World -> Prop) (c : Task A) : Prop :=
  forall w, I w -> I (world (c w)).

(** Bookkeeping the handlers keep between them: timer identifiers are
    fresh, a pending timer is due within [gpt_timeout] of now, and a set
    [AISpeaking] has an utterance queued whose [onDone] will clear it. *)
Definition world_ok (w : World) : Prop :=
  timers_fresh w
  /\ Forall (fun t => deadline t <= clock w + gpt_timeout) (timers w)
  /\ (AISpeaking (ui w) = true -> utterances w <> 0%nat).

(** ** Time spent and replies that arrive later *)

(** The budgets for which the JavaScript numbers of the loop are the
    integers used here: up to 22 attempts every wait [2 ^ attempt * 1000]
    stays below [2 ^ 31] milliseconds, is an exact double, prints as its
    decimal digits and is a delay [setTimeout] takes as it is. *)
Definition exact_budget : N := 22.

(** The time [rounds] rate-limited attempts take, the first one numbered
    [attempt]: for each, the latency of the upload and the wait of
    [2 ^ attempt] seconds after it. *)
Fixpoint rounds_time (endpoint : WhisperEndpoint) (attempt : N) (rounds : nat) : N :=
  match rounds with
  | O => 0
  | S rounds' =>
      whisper_latency (endpoint attempt) + 2 ^ attempt * 1000
      + rounds_time endpoint (attempt + 1) rounds'
  end.

(** [sendToGpt] up to the point where it is suspended in [axios.post]
    (lines 155-188): the timer is set, the warm-up delay has passed and the
    request is on its way. *)
Definition chat_requested (inputText : string) : Task Timer :=
  timeout <- setTimeout gpt_timeout ;;
  delay globalDelay ;;
  emit (PostChat inputText) ;;
  ret timeout.

(** [sendToGpt] from the moment the request resolves with [choices],
    [latency] milliseconds after it was sent (lines 189-195, and the
    [catch] when there is no first choice). *)
Definition chat_resolved (timeout : Timer) (latency : N) (choices : list string)
  : Task unit :=
  await latency ;;
  clearTimeout timeout ;;
  match choices with
  | aiResponse :: _ =>
      update (setText aiResponse) ;;
      update (setAIResponse true) ;;
      update (setLoading false) ;;
      speakText aiResponse ;;
      await 0
  | [] =>
      emit (ConsoleError "Error sending text to GPT:") ;;
      update (setLoading false) ;;
      emit (Alert "Error" "Failed to get AI response.")
  end.

(** ** Scenarios *)

(** An endpoint that is rate limited twice and then answers. *)
Definition limited_twice : WhisperEndpoint :=
  fun attempt =>
    if attempt =? 3 then mkWhisperReply 900 (WhisperOk "turn on the lights")
    else mkWhisperReply 120 Whisper429.

(** An endpoint that is rate limited whatever the attempt. *)
Definition always_limited : WhisperEndpoint :=
  fun _ => mkWhisperReply 120 Whisper429.

(** An endpoint that rejects the credential. *)
Definition unauthorized : WhisperEndpoint :=
  fun _ => mkWhisperReply 80 WhisperError.

Definition granted_script : StartScript :=
  mkStartScript PermissionGranted true
    (Some (mkRecording (Some "file:///cache/recording.wav"))).

(** The screen while a transcript is being answered. *)
Definition processing_world : World :=
  mkWorld
    (mkState "Hello" false true
       (Some (mkRecording (Some "file:///cache/recording.wav"))) false false)
    7300 [] 0 0%nat [].

(** A chat endpoint that never answers, and one that fails fast. *)
Definition never_answers : ChatReply := mkChatReply None ChatError.
Definition refuses : ChatReply := mkChatReply (Some 300) ChatError.

Definition demo_key : option string := Some "sk-demo".

(** The platform grants the microphone but cannot create the recording. *)
Definition capture_fails : StartScript :=
  mkStartScript PermissionGranted true None.

(** The recording cannot be finalised. *)
Definition unload_fails : StopScript :=
  mkStopScript false true always_limited never_answers.

(** The user says Hello and the assistant answers. *)
Definition hello_script : StopScript :=
  mkStopScript true true
    (fun _ => mkWhisperReply 700 (WhisperOk "Hello"))
    (mkChatReply (Some 1800) (ChatOk ["Hi there! How can I help?"])).

(** The endpoint transcribes a silent recording: the request resolves
    and its [text] field is empty. *)
Definition silent_script : StopScript :=
  mkStopScript true true
    (fun _ => mkWhisperReply 700 (WhisperOk ""))
    (mkChatReply (Some 1800) (ChatOk ["I did not catch that."])).

(** The screen while the microphone is open. *)
Definition recording_world : World :=
  world (startRecording demo_key granted_script initial_world).

(** The sentence "the Response Client is invoked if and only if
    transcription succeeds", read on one run of [stopRecording] that got
    as far as the upload of [uri]. *)
Definition answered_iff_transcribed (script : StopScript) (w : World) (uri : string)
  : Prop :=
  value (sendAudioToWhisper uri default_retries (whisper script) w) <> None
  <-> chat_requests (effects (stopRecording script w)) <> [].

(** The microphone permission is refused. *)
Definition denied_script : StartScript :=
  mkStartScript PermissionDenied true
    (Some (mkRecording (Some "file:///cache/recording.wav"))).

(** The chat endpoint answers in time with no completion. *)
Definition no_choices : ChatReply := mkChatReply (Some 1200) (ChatOk []).

(** The screen with the answer to Hello on display, once it has been
    spoken. *)
Definition response_world : World :=
  world (speech_done (world (stopRecording hello_script recording_world))).

(** * Properties *)

(** ** The monad *)

Lemma after_nil {A} (r : Outcome A) : after [] r = r.
Proof. destruct r; reflexivity. Qed.

Lemma after_after {A} (l1 l2 : list Effect) (r : Outcome A) :
  after l1 (after l2 r) = after (l1 ++ l2) r.
Proof. destruct r; cbn. now rewrite app_assoc. Qed.

Lemma value_after {A} (l : list Effect) (r : Outcome A) : value (after l r) = value r.
Proof. destruct r; reflexivity. Qed.

Lemma world_after {A} (l : list Effect) (r : Outcome A) : world (after l r) = world r.
Proof. destruct r; reflexivity. Qed.

Lemma effects_after {A} (l : list Effect) (r : Outcome A) :
  effects (after l r) = l ++ effects r.
Proof. destruct r; reflexivity. Qed.

Lemma bind_after {A B} (c : Task A) (k : A -> Task B) (w : World) :
  bind c k w = after (effects (c w)) (k (value (c w)) (world (c w))).
Proof. unfold bind. destruct (c w); reflexivity. Qed.

(** ** Transcription client *)

Section Transcription.

Variables (uri : string) (retries : N) (endpoint : WhisperEndpoint).

Lemma for_attempts_ok remaining attempt w transcript :
  whisper_result (endpoint attempt) = WhisperOk transcript ->
  for_attempts uri retries endpoint (S remaining) attempt w =
  mkOutcome (Some transcript) (world (await (whisper_latency (endpoint attempt)) w))
            [PostTranscription uri].
Proof. intros H. cbn. rewrite H. reflexivity. Qed.

Lemma for_attempts_error remaining attempt w :
  whisper_result (endpoint attempt) = WhisperError ->
  for_attempts uri retries endpoint (S remaining) attempt w =
  mkOutcome None (world (await (whisper_latency (endpoint attempt)) w))
            [PostTranscription uri; ConsoleError "Whisper API Error:";
             transcription_failure_notice].
Proof. intros H. cbn. rewrite H. reflexivity. Qed.

Lemma for_attempts_exhausted remaining w :
  whisper_result (endpoint retries) = Whisper429 ->
  for_attempts uri retries endpoint (S remaining) retries w =
  mkOutcome None (world (await (whisper_latency (endpoint retries)) w))
            [PostTranscription uri; rate_limit_notice].
Proof. intros H. cbn. rewrite H, N.eqb_refl. reflexivity. Qed.

Lemma for_attempts_round remaining attempt w :
  whisper_result (endpoint attempt) = Whisper429 ->
  attempt <> retries ->
  for_attempts uri retries endpoint (S remaining) attempt w =
  after (backoff_rounds uri attempt 1)
    (for_attempts uri retries endpoint remaining (attempt + 1)
       (backoff_world endpoint attempt 1 w)).
Proof.
  intros H429 Hne. apply N.eqb_neq in Hne.
  cbn. rewrite H429, Hne. cbn.
  now destruct (for_attempts _ _ _ _ _ _).
Qed.

Lemma for_attempts_rounds rounds : forall remaining attempt w,
  (forall j, (j < rounds)%nat ->
     whisper_result (endpoint (attempt + N.of_nat j)) = Whisper429
     /\ attempt + N.of_nat j <> retries) ->
  for_attempts uri retries endpoint (rounds + remaining) attempt w =
  after (backoff_rounds uri attempt rounds)
    (for_attempts uri retries endpoint remaining (attempt + N.of_nat rounds)
       (backoff_world endpoint attempt rounds w)).
Proof.
  induction rounds as [|rounds IH]; intros remaining attempt w H.
  - cbn [Nat.add backoff_rounds backoff_world N.of_nat].
    now rewrite after_nil, N.add_0_r.
  - destruct (H 0%nat ltac:(lia)) as [H429 Hne].
    rewrite N.add_0_r in H429, Hne.
    change (S rounds + remaining)%nat with (S (rounds + remaining)).
    rewrite for_attempts_round by assumption.
    rewrite IH.
    + rewrite after_after.
      replace (attempt + 1 + N.of_nat rounds) with (attempt + N.of_nat (S rounds)) by lia.
      reflexivity.
    + intros j Hj.
      replace (attempt + 1 + N.of_nat j) with (attempt + N.of_nat (S j)) by lia.
      apply H. lia.
Qed.

Lemma sendAudioToWhisper_after w :
  sendAudioToWhisper uri retries endpoint w =
  after [Delay globalDelay]
    (for_attempts uri retries endpoint (N.to_nat retries) 1 (world (await globalDelay w))).
Proof.
  unfold sendAudioToWhisper. rewrite bind_after. reflexivity.
Qed.

(** [sendAudioToWhisper] only lets time pass: the React state, the timers
    and the utterances are as before. *)
Lemma for_attempts_frame remaining : forall attempt w,
  let r := for_attempts uri retries endpoint remaining attempt w in
  ui (world r) = ui w /\ timers (world r) = timers w
  /\ next_timer (world r) = next_timer w /\ utterances (world r) = utterances w.
Proof.
  induction remaining as [|remaining IH]; intros attempt w; cbn.
  - auto.
  - destruct (whisper_result (endpoint attempt)); cbn; auto.
    destruct (attempt =? retries); cbn; auto.
    match goal with |- context [for_attempts _ _ _ _ ?a ?w'] =>
      specialize (IH a w'); destruct (for_attempts _ _ _ _ a w') end.
    cbn in *. exact IH.
Qed.

(** What [sendAudioToWhisper] returns and logs does not depend on the
    world it starts in. *)
Lemma for_attempts_world_independent remaining : forall attempt w w',
  value (for_attempts uri retries endpoint remaining attempt w)
  = value (for_attempts uri retries endpoint remaining attempt w')
  /\ effects (for_attempts uri retries endpoint remaining attempt w)
     = effects (for_attempts uri retries endpoint remaining attempt w').
Proof.
  induction remaining as [|remaining IH]; intros attempt w w'; cbn.
  - auto.
  - destruct (whisper_result (endpoint attempt)); cbn; auto.
    destruct (attempt =? retries); cbn; auto.
    match goal with |- context [for_attempts _ _ _ _ ?a ?w1] =>
      match goal with |- context [for_attempts _ _ _ _ a ?w2] =>
        lazymatch w1 with w2 => fail | _ =>
          specialize (IH a w1 w2);
          destruct (for_attempts _ _ _ _ a w1), (for_attempts _ _ _ _ a w2) end end end.
    cbn in *. destruct IH as [-> ->]. auto.
Qed.

End Transcription.

Lemma waits_backoff_rounds uri rounds : forall attempt rest,
  waits (backoff_rounds uri attempt rounds ++ rest)
  = map (fun j => 2 ^ (attempt + N.of_nat j) * 1000) (seq 0 rounds) ++ waits rest.
Proof.
  induction rounds as [|rounds IH]; intros attempt rest; [reflexivity|].
  cbn [backoff_rounds app waits retry_warning seq map].
  assert (Hpow : 2 ^ attempt <> 0) by (apply N.pow_nonzero; lia).
  replace (2 ^ attempt * 1000 =? globalDelay) with false
    by (symmetry; apply N.eqb_neq; unfold globalDelay; lia).
  rewrite IH, N.add_0_r, <- seq_shift, map_map. cbn [app]. do 2 f_equal.
  apply map_ext. intros j. do 2 f_equal. lia.
Qed.

(** After [k] rate-limited attempts a call with the default budget is at
    attempt [k + 1], having waited after each of the [k]. *)
Lemma sendAudioToWhisper_rounds uri endpoint w (k : nat) :
  (k < 3)%nat ->
  (forall j, (1 <= j <= k)%nat ->
     whisper_result (endpoint (N.of_nat j)) = Whisper429) ->
  sendAudioToWhisper uri default_retries endpoint w =
  after (Delay globalDelay :: backoff_rounds uri 1 k)
    (for_attempts uri default_retries endpoint (3 - k) (N.of_nat (S k))
       (backoff_world endpoint 1 k (world (await globalDelay w)))).
Proof.
  intros Hk H429.
  rewrite sendAudioToWhisper_after.
  replace (N.to_nat default_retries) with (k + (3 - k))%nat
    by (unfold default_retries; lia).
  rewrite for_attempts_rounds.
  - rewrite after_after. cbn [app].
    replace (1 + N.of_nat k) with (N.of_nat (S k)) by lia. reflexivity.
  - intros j Hj. replace (1 + N.of_nat j) with (N.of_nat (S j)) by lia.
    split; [apply H429; lia | unfold default_retries; lia].
Qed.

(** A call with the default budget always starts with the warm-up wait and
    a first upload. *)
Lemma rate_limited_attempts_start uri endpoint w :
  exists rest,
    effects (sendAudioToWhisper uri default_retries endpoint w)
    = Delay globalDelay :: PostTranscription uri :: rest.
Proof.
  rewrite sendAudioToWhisper_after, effects_after.
  change (N.to_nat default_retries) with 3%nat.
  cbn [for_attempts]. rewrite bind_after. unfold post_transcription at 1.
  rewrite !bind_after. cbn [emit effects app after].
  rewrite !effects_after. cbn [app]. eexists. reflexivity.
Qed.

Lemma for_attempts_clock uri retries endpoint remaining : forall attempt w,
  clock w <= clock (world (for_attempts uri retries endpoint remaining attempt w)).
Proof.
  induction remaining as [|remaining IH]; intros attempt w; cbn; [lia|].
  destruct (whisper_result (endpoint attempt)); cbn; try lia.
  destruct (attempt =? retries); cbn; try lia.
  match goal with |- context [for_attempts _ _ _ _ ?a ?w'] =>
    specialize (IH a w'); destruct (for_attempts _ _ _ _ a w') end.
  cbn in *. lia.
Qed.

Lemma for_attempts_first_reply uri retries endpoint remaining attempt w :
  clock w + whisper_latency (endpoint attempt)
  <= clock (world (for_attempts uri retries endpoint (S remaining) attempt w)).
Proof.
  cbn. destruct (whisper_result (endpoint attempt)); cbn; try lia.
  destruct (attempt =? retries); cbn; try lia.
  match goal with |- context [for_attempts _ _ _ _ ?a ?w'] =>
    pose proof (for_attempts_clock uri retries endpoint remaining a w') as Hclock;
    destruct (for_attempts _ _ _ _ a w') end.
  cbn in *. lia.
Qed.

Lemma backoff_world_clock endpoint rounds : forall attempt w,
  clock (backoff_world endpoint attempt rounds w)
  = clock w + rounds_time endpoint attempt rounds.
Proof.
  induction rounds as [|rounds IH]; intros attempt w;
    cbn [backoff_world rounds_time]; [lia|].
  rewrite IH. cbn. lia.
Qed.

(** After [k] rate-limited attempts a call with any budget above [k] is
    at attempt [k + 1], having waited after each of the [k]. *)
Lemma sendAudioToWhisper_rounds_of_any_budget uri retries endpoint w (k : nat) :
  N.of_nat k < retries ->
  (forall j, (1 <= j <= k)%nat ->
     whisper_result (endpoint (N.of_nat j)) = Whisper429) ->
  sendAudioToWhisper uri retries endpoint w =
  after (Delay globalDelay :: backoff_rounds uri 1 k)
    (for_attempts uri retries endpoint (N.to_nat retries - k) (N.of_nat (S k))
       (backoff_world endpoint 1 k (world (await globalDelay w)))).
Proof.
  intros Hk H429.
  rewrite sendAudioToWhisper_after.
  replace (N.to_nat retries) with (k + (N.to_nat retries - k))%nat at 1 by lia.
  rewrite for_attempts_rounds.
  - rewrite after_after. cbn [app].
    replace (1 + N.of_nat k) with (N.of_nat (S k)) by lia. reflexivity.
  - intros j Hj. replace (1 + N.of_nat j) with (N.of_nat (S j)) by lia.
    split; [apply H429; lia | lia].
Qed.

(** C1. Every rate-limited attempt that is not the last one allowed is
    followed by a wait of [2 ^ attempt] seconds and then by the next
    upload, attempts being numbered from 1, whatever the budget.  After [k]
    such attempts the log is the warm-up wait, the [k] rounds of upload,
    warning and wait of [2 ^ 1], ..., [2 ^ k] seconds, and the upload of
    attempt [k + 1]; by the time that upload is answered the clock has
    advanced by the warm-up delay, the latency of every upload and all of
    these waits.  When that upload succeeds, its text is returned, nothing
    else is done, and the call has taken exactly that long. *)
Theorem rate_limited_attempts_back_off uri retries endpoint w (k : nat) :
  retries <= exact_budget ->
  N.of_nat k < retries ->
  (forall j, (1 <= j <= k)%nat ->
     whisper_result (endpoint (N.of_nat j)) = Whisper429) ->
  let r := sendAudioToWhisper uri retries endpoint w in
  let answered :=
    clock w + globalDelay + rounds_time endpoint 1 k
    + whisper_latency (endpoint (N.of_nat (S k))) in
  exists rest,
    effects r
    = Delay globalDelay :: backoff_rounds uri 1 k ++ PostTranscription uri :: rest
    /\ answered <= clock (world r)
    /\ match whisper_result (endpoint (N.of_nat (S k))) with
       | WhisperOk data_text =>
           value r = Some data_text
           /\ rest = []
           /\ waits (effects r)
              = map (fun j => 2 ^ N.of_nat j * 1000) (seq 1 k)
           /\ clock (world r) = answered
       | _ => True
       end.
Proof.
  intros _ Hk H429 r answered. subst r answered.
  rewrite (sendAudioToWhisper_rounds_of_any_budget uri retries endpoint w k Hk H429).
  destruct (N.to_nat retries - k)%nat as [|remaining] eqn:Hrem; [lia|].
  rewrite effects_after, world_after, value_after.
  pose proof (for_attempts_first_reply uri retries endpoint remaining (N.of_nat (S k))
                (backoff_world endpoint 1 k (world (await globalDelay w)))) as Hclock.
  rewrite backoff_world_clock in Hclock.
  change (clock (world (await globalDelay w))) with (clock w + globalDelay) in Hclock.
  destruct (whisper_result (endpoint (N.of_nat (S k)))) as [data_text| |] eqn:Hreply.
  - exists []. split; [|split; [exact Hclock|]];
      rewrite (for_attempts_ok _ _ _ _ _ _ data_text Hreply);
      cbn [effects value world app]; [reflexivity|].
    split; [reflexivity|]. split; [reflexivity|]. split.
    + change (Delay globalDelay :: backoff_rounds uri 1 k ++ [PostTranscription uri])
        with ([Delay globalDelay] ++ backoff_rounds uri 1 k ++ [PostTranscription uri]).
      cbn [app waits]. rewrite N.eqb_refl, waits_backoff_rounds. cbn [waits].
      rewrite app_nil_r, <- seq_shift, map_map. apply map_ext.
      intros j. do 2 f_equal. lia.
    + cbn [await world clock]. rewrite backoff_world_clock. cbn [await world clock].
      reflexivity.
  - eexists. split; [|split; [exact Hclock | exact I]].
    cbn [for_attempts]. rewrite bind_after. unfold post_transcription at 1.
    rewrite !bind_after. cbn [emit effects app after].
    rewrite !effects_after. cbn [app]. reflexivity.
  - eexists. split; [|split; [exact Hclock | exact I]].
    rewrite (for_attempts_error _ _ _ _ _ _ Hreply). cbn [effects app]. reflexivity.
Qed.

Lemma rate_limited_attempts_back_off_witness :
  (let r := sendAudioToWhisper "file:///cache/recording.wav" default_retries
              limited_twice initial_world in
   value r = Some "turn on the lights"
   /\ effects r
      = [Delay 500;
         PostTranscription "file:///cache/recording.wav";
         ConsoleWarn "Rate limit reached. Retrying in 2 seconds..."; Delay 2000;
         PostTranscription "file:///cache/recording.wav";
         ConsoleWarn "Rate limit reached. Retrying in 4 seconds..."; Delay 4000;
         PostTranscription "file:///cache/recording.wav"]
   /\ waits (effects r) = [2000; 4000]
   /\ clock (world r) = 500 + (120 + 2000) + (120 + 4000) + 900)
  /\ (let r := sendAudioToWhisper "file:///cache/recording.wav" 5
                 always_limited initial_world in
      exists rest,
        effects r
        = [Delay 500;
           PostTranscription "file:///cache/recording.wav";
           ConsoleWarn "Rate limit reached. Retrying in 2 seconds..."; Delay 2000;
           PostTranscription "file:///cache/recording.wav";
           ConsoleWarn "Rate limit reached. Retrying in 4 seconds..."; Delay 4000;
           PostTranscription "file:///cache/recording.wav";
           ConsoleWarn "Rate limit reached. Retrying in 8 seconds..."; Delay 8000;
           PostTranscription "file:///cache/recording.wav";
           ConsoleWarn "Rate limit reached. Retrying in 16 seconds..."; Delay 16000;
           PostTranscription "file:///cache/recording.wav"] ++ rest
        /\ 500 + (120 + 2000) + (120 + 4000) + (120 + 8000) + (120 + 16000) + 120
           <= clock (world r)).
Proof.
  split.
  - intros r.
    assert (Hexact : default_retries <= exact_budget) by (vm_compute; discriminate).
    assert (Hk : N.of_nat 2 < default_retries) by reflexivity.
    assert (H429 : forall j, (1 <= j <= 2)%nat ->
              whisper_result (limited_twice (N.of_nat j)) = Whisper429).
    { intros j Hj. destruct j as [|[|[|j]]]; try lia; reflexivity. }
    destruct (rate_limited_attempts_back_off "file:///cache/recording.wav"
                default_retries limited_twice initial_world 2 Hexact Hk H429)
      as (rest & Hlog & _ & Hok).
    cbn in Hok. destruct Hok as (Hvalue & Hrest & Hwaits & Hclock).
    subst rest. split; [exact Hvalue | split; [exact Hlog | split; [exact Hwaits|]]].
    exact Hclock.
  - intros r.
    assert (Hexact : 5 <= exact_budget) by (vm_compute; discriminate).
    assert (Hk : N.of_nat 4 < 5) by reflexivity.
    assert (H429 : forall j, (1 <= j <= 4)%nat ->
              whisper_result (always_limited (N.of_nat j)) = Whisper429)
      by reflexivity.
    destruct (rate_limited_attempts_back_off "file:///cache/recording.wav"
                5 always_limited initial_world 4 Hexact Hk H429)
      as (rest & Hlog & Hclock & _).
    exists rest. split; [exact Hlog | exact Hclock].
Defined.

(** C2. Against an endpoint that is rate limited on every attempt, a call
    uploads exactly three times, shows the rate-limit notice after the
    third upload and returns [null]. *)
Theorem rate_limit_exhausts_after_three_attempts uri endpoint w :
  (forall j, (1 <= j <= 3)%nat ->
     whisper_result (endpoint (N.of_nat j)) = Whisper429) ->
  let r := sendAudioToWhisper uri default_retries endpoint w in
  value r = None
  /\ effects r
     = Delay globalDelay :: backoff_rounds uri 1 2
       ++ [PostTranscription uri; rate_limit_notice]
  /\ uploads (effects r) = [uri; uri; uri]
  /\ waits (effects r) = [2000; 4000].
Proof.
  intros H429 r. subst r.
  rewrite (sendAudioToWhisper_rounds uri endpoint w 2 ltac:(lia)
             (fun j Hj => H429 j ltac:(lia))).
  change (3 - 2)%nat with 1%nat. change (N.of_nat 3) with default_retries.
  rewrite for_attempts_exhausted by (apply (H429 3%nat); lia).
  cbn [after value effects]. split; [reflexivity|]. split; [reflexivity|].
  split; reflexivity.
Qed.

Lemma rate_limit_exhausts_after_three_attempts_witness :
  let r := sendAudioToWhisper "file:///cache/recording.wav" default_retries
             always_limited initial_world in
  value r = None
  /\ effects r
     = [Delay 500;
        PostTranscription "file:///cache/recording.wav";
        ConsoleWarn "Rate limit reached. Retrying in 2 seconds..."; Delay 2000;
        PostTranscription "file:///cache/recording.wav";
        ConsoleWarn "Rate limit reached. Retrying in 4 seconds..."; Delay 4000;
        PostTranscription "file:///cache/recording.wav";
        Alert "Rate Limit Reached"
              "Too many requests. Please wait a moment and try again."]
  /\ length (uploads (effects r)) = 3%nat.
Proof.
  intros r.
  destruct (rate_limit_exhausts_after_three_attempts "file:///cache/recording.wav"
              always_limited initial_world (fun _ _ => eq_refl))
    as (Hvalue & Hlog & Huploads & _).
  split; [exact Hvalue | split; [exact Hlog |]].
  fold r in Huploads. rewrite Huploads. reflexivity.
Defined.

(** C3. When an upload fails with anything but a 429, the call logs the
    error, shows the generic transcription notice and returns [null] right
    there: that upload is the last entry before the notice, no wait and no
    further upload follows it.  (Earlier attempts of the same call, if any,
    were rate limited; with none, the failing upload is the only one.) *)
Theorem other_errors_are_not_retried uri endpoint w (k : nat) :
  (k < 3)%nat ->
  (forall j, (1 <= j <= k)%nat ->
     whisper_result (endpoint (N.of_nat j)) = Whisper429) ->
  whisper_result (endpoint (N.of_nat (S k))) = WhisperError ->
  let r := sendAudioToWhisper uri default_retries endpoint w in
  value r = None
  /\ effects r
     = Delay globalDelay :: backoff_rounds uri 1 k
       ++ [PostTranscription uri; ConsoleError "Whisper API Error:";
           transcription_failure_notice]
  /\ length (uploads (effects r)) = S k
  /\ length (waits (effects r)) = k.
Proof.
  intros Hk H429 Herr r. subst r.
  rewrite (sendAudioToWhisper_rounds uri endpoint w k Hk H429).
  destruct (3 - k)%nat as [|remaining] eqn:Hrem; [lia|].
  rewrite (for_attempts_error _ _ _ _ _ _ Herr). cbn [after value effects].
  split; [reflexivity|]. split; [reflexivity|].
  assert (Hk3 : k = 0%nat \/ k = 1%nat \/ k = 2%nat) by lia.
  destruct Hk3 as [-> | [-> | ->]]; split; reflexivity.
Qed.

Lemma other_errors_are_not_retried_witness :
  let r := sendAudioToWhisper "file:///cache/recording.wav" default_retries
             unauthorized initial_world in
  value r = None
  /\ effects r
     = [Delay 500;
        PostTranscription "file:///cache/recording.wav";
        ConsoleError "Whisper API Error:";
        Alert "Error" "Failed to transcribe audio."]
  /\ waits (effects r) = [].
Proof.
  intros r.
  assert (Hk : (0 < 3)%nat) by lia.
  assert (H429 : forall j, (1 <= j <= 0)%nat ->
            whisper_result (unauthorized (N.of_nat j)) = Whisper429) by (intros; lia).
  destruct (other_errors_are_not_retried "file:///cache/recording.wav"
              unauthorized initial_world 0 Hk H429 eq_refl)
    as (Hvalue & Hlog & _ & Hwaits).
  split; [exact Hvalue | split; [exact Hlog |]].
  fold r in Hwaits. now apply length_zero_iff_nil.
Defined.

(** ** Recorder controller *)

(** C4. Without a credential, [startRecording] shows the configuration
    notice and returns: no permission is requested, no audio mode is set,
    no recording is created, and the world is as it was. *)
Theorem missing_credential_stops_before_the_microphone key script w :
  truthy key = None ->
  startRecording key script w = mkOutcome tt w [configuration_notice].
Proof.
  intros Hkey. unfold startRecording. rewrite Hkey. reflexivity.
Qed.

Lemma missing_credential_stops_before_the_microphone_witness :
  startRecording None granted_script initial_world
  = mkOutcome tt initial_world
      [Alert "Configuration Error" "OpenAI API Key is missing."]
  /\ startRecording (Some "") granted_script initial_world
     = mkOutcome tt initial_world
         [Alert "Configuration Error" "OpenAI API Key is missing."].
Proof.
  split.
  - exact (missing_credential_stops_before_the_microphone None granted_script
             initial_world eq_refl).
  - exact (missing_credential_stops_before_the_microphone (Some "") granted_script
             initial_world eq_refl).
Defined.

(** ** Response client *)

Ltac run_task :=
  unfold sendToGpt, post_chat, speakText, speech_speak, clearTimeout, setTimeout,
    timeout_callback, delay, bind, emit, read, update, await, ret;
  cbn.

Lemma filter_fresh w :
  timers_fresh w ->
  filter (fun t => negb (timer_id t =? next_timer w)) (timers w) = timers w.
Proof.
  unfold timers_fresh. induction 1 as [|t l Ht _ IH]; cbn; [reflexivity|].
  replace (timer_id t =? next_timer w) with false
    by (symmetry; apply N.eqb_neq; lia).
  cbn. now rewrite IH.
Qed.

Lemma drop_own_timer w deadline :
  timers_fresh w ->
  filter (fun t => negb (timer_id t =? next_timer w))
         (timers w ++ [mkTimer (next_timer w) deadline])
  = timers w.
Proof.
  intros Hfresh. rewrite filter_app, filter_fresh by assumption.
  cbn. rewrite N.eqb_refl. cbn. apply app_nil_r.
Qed.

Lemma setLoading_keeps_other_states s :
  match interaction_state s with
  | Some Processing => interaction_state (setLoading false s) = Some Idle
  | Some state => interaction_state (setLoading false s) = Some state
  | None => True
  end.
Proof.
  unfold interaction_state. cbn.
  destruct (isRecording s), (loading s), (AIResponse s), (AISpeaking s);
    try exact I; reflexivity.
Qed.

(** C5, as written, fails: a call made by the regenerate control that
    times out is aborted and shows the timeout notice, but the response it
    was to replace stays on display: the screen ends in ResponseReady, not
    in Idle. *)
Lemma timed_out_regeneration_keeps_the_response :
  let r := pressRegenerate never_answers response_world in
  rendered RegenerateControl (ui response_world) = true
  /\ effects r
     = [SetTimeout 10000; Delay 500; PostChat "Hi there! How can I help?";
        Abort; Alert "Timeout" "The server took too long to respond.";
        ConsoleError "Error sending text to GPT:";
        Alert "Error" "Failed to get AI response."]
  /\ loading (ui (world r)) = false
  /\ interaction_state (ui (world r)) = Some ResponseReady
  /\ interaction_state (ui (world r)) <> Some Idle.
Proof.
  cbn zeta. split; [reflexivity|]. split; [reflexivity|]. split; [reflexivity|].
  split; [reflexivity | discriminate].
Qed.

(** C5, amended. A call to [sendToGpt] whose request has not settled
    when ten seconds have passed since the call began is aborted by the
    timer: the timer's callback aborts the request, clears [loading] and
    shows the timeout notice, and the call ends in its [catch] without a
    response.  The other cells are as before, so a call made in Processing
    ends in Idle and a call made with a response on display (regenerate)
    ends with that response still on display.  A call whose request
    resolves before the deadline clears the timer, and the first
    completion's text becomes the displayed and spoken response. *)
Theorem generation_deadline inputText reply w :
  timers_fresh w ->
  let r := sendToGpt inputText reply w in
  let expired :=
    effects r
    = [SetTimeout gpt_timeout; Delay globalDelay; PostChat inputText;
       Abort; timeout_notice;
       ConsoleError "Error sending text to GPT:"; generation_failure_notice]
    /\ ui (world r) = setLoading false (ui w)
    /\ match interaction_state (ui w) with
       | Some Processing => interaction_state (ui (world r)) = Some Idle
       | Some state => interaction_state (ui (world r)) = Some state
       | None => True
       end
    /\ timers (world r) = timers w
    /\ clock (world r) = clock w + gpt_timeout in
  match chat_latency reply with
  | None => expired
  | Some latency =>
      if globalDelay + latency <? gpt_timeout then
        match chat_result reply with
        | ChatOk (aiResponse :: _) =>
            effects r
            = [SetTimeout gpt_timeout; Delay globalDelay; PostChat inputText;
               ClearTimeout; Speak aiResponse]
            /\ ui (world r)
               = setAISpeaking true
                   (setLoading false (setAIResponse true (setText aiResponse (ui w))))
            /\ timers (world r) = timers w
        | _ => True
        end
      else expired
  end.
Proof.
  intros Hfresh r expired.
  assert (Hexpired :
            match chat_latency reply with
            | Some latency =>
                (clock w + globalDelay + latency <? clock w + gpt_timeout) = false
            | None => True
            end -> expired).
  { intros Hlate. subst expired r. run_task.
    destruct (chat_latency reply) as [latency|]; [rewrite Hlate|]; cbn;
      rewrite drop_own_timer by assumption;
      (split; [reflexivity|]); (split; [reflexivity|]);
      (split; [exact (setLoading_keeps_other_states (ui w))|]);
      (split; [reflexivity|]);
      unfold globalDelay, gpt_timeout; lia. }
  destruct (chat_latency reply) as [latency|] eqn:Hlatency; [|now apply Hexpired].
  destruct (globalDelay + latency <? gpt_timeout) eqn:Hltb.
  - apply N.ltb_lt in Hltb.
    destruct (chat_result reply) as [[|aiResponse rest]|] eqn:Hresult; try exact I.
    subst r. run_task. rewrite Hlatency.
    replace (clock w + globalDelay + latency <? clock w + gpt_timeout) with true
      by (symmetry; apply N.ltb_lt; lia).
    cbn. rewrite Hresult. cbn. rewrite drop_own_timer by assumption.
    repeat split.
  - apply N.ltb_ge in Hltb. apply Hexpired. apply N.ltb_ge. lia.
Qed.

Lemma generation_deadline_witness :
  (let r := sendToGpt "Hello" never_answers processing_world in
   effects r
   = [SetTimeout 10000; Delay 500; PostChat "Hello";
      Abort; Alert "Timeout" "The server took too long to respond.";
      ConsoleError "Error sending text to GPT:";
      Alert "Error" "Failed to get AI response."]
   /\ interaction_state (ui processing_world) = Some Processing
   /\ interaction_state (ui (world r)) = Some Idle
   /\ timers (world r) = [])
  /\ (let r := sendToGpt "Hi there! How can I help?" never_answers response_world in
      interaction_state (ui response_world) = Some ResponseReady
      /\ interaction_state (ui (world r)) = Some ResponseReady
      /\ loading (ui (world r)) = false).
Proof.
  split.
  - intros r.
    assert (Hfresh : timers_fresh processing_world) by constructor.
    pose proof (generation_deadline "Hello" never_answers processing_world Hfresh)
      as (Hlog & _ & Hidle & Htimers & _).
    split; [exact Hlog | split; [reflexivity | split; [exact Hidle | exact Htimers]]].
  - intros r.
    assert (Hfresh : timers_fresh response_world) by constructor.
    pose proof (generation_deadline "Hi there! How can I help?" never_answers
                  response_world Hfresh) as (_ & Hui & Hstate & _).
    split; [reflexivity|]. split; [exact Hstate|].
    fold r in Hui. rewrite Hui. reflexivity.
Defined.

Lemma run_callbacks_spec due : forall w,
  let r := run_callbacks due w in
  effects r = expiry_log due
  /\ timers (world r) = timers w
  /\ ui (world r) = match due with
                    | [] => ui w
                    | _ :: _ => setLoading false (ui w)
                    end.
Proof.
  induction due as [|t due IH]; intros w; cbn.
  - repeat split.
  - unfold timeout_callback, bind, emit, update. cbn.
    match goal with |- context [run_callbacks due ?w'] =>
      specialize (IH w'); destruct (run_callbacks due w') as [[] w'' log] end.
    cbn in *. destruct IH as (-> & -> & ->).
    repeat split. now destruct due.
Qed.

Lemma elapse_spec ms w :
  let now := clock w + ms in
  let due := filter (is_due now) (timers w) in
  let r := elapse ms w in
  effects r = expiry_log due
  /\ timers (world r) = filter (fun t => negb (is_due now t)) (timers w)
  /\ ui (world r) = match due with
                    | [] => ui w
                    | _ :: _ => setLoading false (ui w)
                    end.
Proof.
  intros now due r. subst r. unfold elapse.
  match goal with |- context [run_callbacks ?d ?w'] =>
    destruct (run_callbacks_spec d w') as (He & Ht & Hu) end.
  fold now due in He, Ht, Hu |- *.
  rewrite He, Ht, Hu. repeat split.
Qed.

(** C10. When the chat request rejects on its own before the deadline,
    [sendToGpt] shows the generic failure notice and returns with its
    timer still pending, due ten seconds after the call began.  The timer
    does not fire before that; once the clock reaches the deadline, its
    callback runs, clearing [loading] and showing the timeout notice on top
    of the failure notice of the same call. *)
Theorem failed_request_leaves_the_timer_running inputText reply w latency ms :
  chat_latency reply = Some latency ->
  chat_result reply = ChatError ->
  globalDelay + latency < gpt_timeout ->
  let r := sendToGpt inputText reply w in
  let timeout := mkTimer (next_timer w) (clock w + gpt_timeout) in
  let later := elapse ms (world r) in
  let others := filter (is_due (clock (world r) + ms)) (timers w) in
  effects r
  = [SetTimeout gpt_timeout; Delay globalDelay; PostChat inputText;
     ConsoleError "Error sending text to GPT:"; generation_failure_notice]
  /\ clock (world r) = clock w + globalDelay + latency
  /\ timers (world r) = timers w ++ [timeout]
  /\ if clock w + gpt_timeout <=? clock (world r) + ms
     then effects later = expiry_log others ++ [Abort; timeout_notice]
          /\ ~ In timeout (timers (world later))
          /\ loading (ui (world later)) = false
     else effects later = expiry_log others
          /\ In timeout (timers (world later)).
Proof.
  intros Hlatency Hresult Hlt r timeout.
  assert (Hr : r = mkOutcome tt
                 (mkWorld (setLoading false (ui w)) (clock w + globalDelay + latency)
                    (timers w ++ [timeout]) (next_timer w + 1) (utterances w)
                    ((history w ++ [ui w]) ++ [ui w]))
                 [SetTimeout gpt_timeout; Delay globalDelay; PostChat inputText;
                  ConsoleError "Error sending text to GPT:";
                  generation_failure_notice]).
  { subst r. run_task. rewrite Hlatency.
    replace (clock w + globalDelay + latency <? clock w + gpt_timeout) with true
      by (symmetry; apply N.ltb_lt; lia).
    cbn. rewrite Hresult. reflexivity. }
  clearbody r. subst r. intros later others. subst later others.
  cbn [world effects clock timers].
  split; [reflexivity|]. split; [reflexivity|]. split; [reflexivity|].
  match goal with |- context [elapse ms ?w'] =>
    destruct (elapse_spec ms w') as (He & Ht & Hu);
    set (later := elapse ms w') in * end.
  cbn [world clock timers ui] in He, Ht, Hu.
  set (now := clock w + globalDelay + latency + ms) in *.
  set (others := filter (is_due now) (timers w)) in *.
  rewrite filter_app in He, Ht, Hu. fold others in He, Hu.
  unfold expiry_log in He. rewrite flat_map_app in He. fold (expiry_log others) in He.
  unfold timeout in He, Ht, Hu. cbn [filter] in He, Ht, Hu.
  change (is_due now (mkTimer (next_timer w) (clock w + gpt_timeout)))
    with (clock w + gpt_timeout <=? now) in He, Ht, Hu.
  destruct (clock w + gpt_timeout <=? now) eqn:Hdue.
  - cbn [negb flat_map app] in He, Ht. split; [exact He|]. split.
    + rewrite Ht, app_nil_r. intros Hin. apply filter_In in Hin.
      destruct Hin as [_ Hnot]. unfold is_due in Hnot. cbn [deadline timeout] in Hnot.
      rewrite Hdue in Hnot. discriminate.
    + rewrite Hu. now destruct others.
  - cbn [negb flat_map] in He, Ht. rewrite app_nil_r in He. split; [exact He|].
    rewrite Ht. apply in_or_app. right. now left.
Qed.

Lemma failed_request_leaves_the_timer_running_witness :
  let r := sendToGpt "Hello" refuses processing_world in
  effects r
  = [SetTimeout 10000; Delay 500; PostChat "Hello";
     ConsoleError "Error sending text to GPT:";
     Alert "Error" "Failed to get AI response."]
  /\ clock (world r) = 7300 + 800
  /\ timers (world r) = [mkTimer 0 (7300 + 10000)]
  /\ effects (elapse 9199 (world r)) = []
  /\ effects (elapse 9200 (world r))
     = [Abort; Alert "Timeout" "The server took too long to respond."].
Proof.
  intros r.
  assert (Hlt : globalDelay + 300 < gpt_timeout) by reflexivity.
  pose proof (failed_request_leaves_the_timer_running "Hello" refuses
                processing_world 300 9199 eq_refl eq_refl Hlt)
    as (Hlog & Hclock & Htimers & Hearly & _).
  pose proof (failed_request_leaves_the_timer_running "Hello" refuses
                processing_world 300 9200 eq_refl eq_refl Hlt)
    as (_ & _ & _ & Hdue & _).
  split; [exact Hlog|]. split; [exact Hclock|]. split; [exact Htimers|].
  split; [exact Hearly | exact Hdue].
Defined.

(** ** What reaches the chat endpoint *)

Lemma chat_requests_app l1 l2 :
  chat_requests (l1 ++ l2) = chat_requests l1 ++ chat_requests l2.
Proof.
  induction l1 as [|e l1 IH]; [reflexivity|].
  destruct e; cbn; now rewrite ?IH.
Qed.

Lemma for_attempts_chat_requests uri retries endpoint remaining : forall attempt w,
  chat_requests (effects (for_attempts uri retries endpoint remaining attempt w)) = [].
Proof.
  induction remaining as [|remaining IH]; intros attempt w; cbn; [reflexivity|].
  destruct (whisper_result (endpoint attempt)); cbn; try reflexivity.
  destruct (attempt =? retries); cbn; [reflexivity|].
  match goal with |- context [for_attempts _ _ _ _ ?a ?w'] =>
    specialize (IH a w'); destruct (for_attempts _ _ _ _ a w') end.
  exact IH.
Qed.

Lemma sendAudioToWhisper_chat_requests uri retries endpoint w :
  chat_requests (effects (sendAudioToWhisper uri retries endpoint w)) = [].
Proof.
  rewrite sendAudioToWhisper_after, effects_after.
  cbn [app chat_requests]. apply for_attempts_chat_requests.
Qed.

Lemma sendAudioToWhisper_world_independent uri retries endpoint w w' :
  value (sendAudioToWhisper uri retries endpoint w)
  = value (sendAudioToWhisper uri retries endpoint w')
  /\ effects (sendAudioToWhisper uri retries endpoint w)
     = effects (sendAudioToWhisper uri retries endpoint w').
Proof.
  rewrite !sendAudioToWhisper_after, !value_after, !effects_after.
  match goal with |- context [for_attempts _ _ _ ?n ?a ?w1] =>
    match goal with |- context [for_attempts _ _ _ n a ?w2] =>
      lazymatch w1 with w2 => fail | _ =>
        destruct (for_attempts_world_independent uri retries endpoint n a w1 w2)
          as [-> ->] end end end.
  split; reflexivity.
Qed.

(** Whatever the endpoint does, one call to [sendToGpt] issues one chat
    request, carrying the text it was called with. *)
Lemma sendToGpt_chat_requests inputText reply w :
  chat_requests (effects (sendToGpt inputText reply w)) = [inputText].
Proof.
  run_task.
  destruct (chat_latency reply) as [latency|]; [|reflexivity].
  destruct (_ <? _); [|reflexivity]. cbn.
  destruct (chat_result reply) as [[|aiResponse rest]|]; reflexivity.
Qed.

(** C6 (the code departs from the claim). The transcript Hello is
    answered; pressing regenerate then sends the answer on display, not
    Hello, as the user message.  The recorder is not involved. *)
Theorem regenerate_resubmits_the_displayed_response :
  exists w log,
    run demo_key
      [PressMicrophone granted_script; PressStop hello_script;
       PressRegenerate (mkChatReply (Some 1500) (ChatOk ["Hello again!"]))]
      initial_world = Some (w, log)
    /\ uploads log = ["file:///cache/recording.wav"]
    /\ chat_requests log = ["Hello"; "Hi there! How can I help?"]
    /\ (forall reply w',
          chat_requests (effects (pressRegenerate reply w')) = [text (ui w')]).
Proof.
  eexists. eexists. split; [vm_compute; reflexivity|].
  split; [reflexivity|]. split; [reflexivity|].
  intros reply w'. unfold pressRegenerate. rewrite bind_after.
  cbn [read value world effects after]. rewrite effects_after.
  apply sendToGpt_chat_requests.
Qed.

(** C7 (the code departs from the claim). When [createAsync] throws,
    [startRecording] shows its notice but leaves [isRecording] set: the
    screen stays in Recording.  The [catch] of [stopRecording] does reset
    its flag. *)
Theorem failed_start_leaves_the_recording_flag_set :
  let r := startRecording demo_key capture_fails initial_world in
  effects r
  = [RequestPermissions; SetAudioMode true; CreateRecording;
     ConsoleError "Failed to start recording:"; start_failure_notice]
  /\ isRecording (ui (world r)) = true
  /\ interaction_state (ui (world r)) = Some Recording
  /\ (forall w, isRecording (ui (world (startRecording demo_key capture_fails w))) = true)
  /\ (forall w, loading (ui (world (stopRecording unload_fails w))) = false).
Proof.
  repeat split.
  intros w. unfold stopRecording, bind, read, update, emit, await, ret. cbn.
  destruct (recording (ui w)); reflexivity.
Qed.

(** ** Stop, transcribe, answer *)

(** [stopRecording], once the recording is finalised: the transcription
    client runs, and its result decides what follows. *)
Lemma stopRecording_finalised script w rec uri :
  recording (ui w) = Some rec ->
  truthy (getURI rec) = Some uri ->
  stop_ok script = true ->
  playback_mode_ok script = true ->
  exists w1,
    stopRecording script w =
    after [StopAndUnload; SetAudioMode false]
      ((transcript <- sendAudioToWhisper uri default_retries (whisper script) ;;
        match truthy transcript with
        | Some transcript =>
            update (setText transcript) ;; sendToGpt transcript (chat script)
        | None => update (setLoading false)
        end) w1).
Proof.
  intros Hrec Huri Hstop Hmode. eexists.
  unfold stopRecording.
  rewrite bind_after. cbn [read value world effects]. rewrite Hrec, after_nil.
  rewrite bind_after. cbn [update value world effects]. rewrite after_nil.
  rewrite bind_after. cbn [update value world effects]. rewrite after_nil.
  rewrite bind_after.
  match goal with |- context [effects (?c ?w')] =>
    change (effects (c w')) with [StopAndUnload];
    change (value (c w')) with (stop_ok script) end.
  rewrite Hstop. cbn [negb].
  rewrite bind_after. cbn [emit value world effects].
  rewrite bind_after. cbn [await value world effects].
  rewrite Hmode, Huri. cbn [negb]. rewrite after_nil, after_after.
  reflexivity.
Qed.

(** C8, as written, fails: a silent recording is transcribed to the empty
    text, which is a successful transcription, and no chat request is
    issued for it. *)
Lemma silent_recording_is_not_answered :
  value (sendAudioToWhisper "file:///cache/recording.wav" default_retries
           (whisper silent_script) recording_world) = Some ""
  /\ chat_requests (effects (stopRecording silent_script recording_world)) = []
  /\ ~ answered_iff_transcribed silent_script recording_world
         "file:///cache/recording.wav".
Proof.
  split; [reflexivity|]. split; [reflexivity|].
  unfold answered_iff_transcribed. intros [Hanswered _].
  apply Hanswered; [discriminate | reflexivity].
Qed.

(** C8, amended. Once the recording is finalised, [stopRecording] runs
    the transcription client first, and issues a chat request exactly when
    the transcription returned a non-empty text, that text being the
    request's user message.  When the transcription failed or returned the
    empty text, nothing follows it: no chat request is issued and
    [loading] is cleared. *)
Theorem response_follows_a_nonempty_transcript script w rec uri :
  recording (ui w) = Some rec ->
  truthy (getURI rec) = Some uri ->
  stop_ok script = true ->
  playback_mode_ok script = true ->
  let r := stopRecording script w in
  let transcription := sendAudioToWhisper uri default_retries (whisper script) w in
  exists rest answer,
    effects transcription = Delay globalDelay :: PostTranscription uri :: rest
    /\ chat_requests (effects transcription) = []
    /\ effects r
       = [StopAndUnload; SetAudioMode false] ++ effects transcription ++ answer
    /\ match truthy (value transcription) with
       | Some transcript =>
           chat_requests answer = [transcript]
           /\ chat_requests (effects r) = [transcript]
       | None =>
           answer = []
           /\ chat_requests (effects r) = []
           /\ loading (ui (world r)) = false
       end.
Proof.
  intros Hrec Huri Hstop Hmode r transcription.
  destruct (stopRecording_finalised script w rec uri Hrec Huri Hstop Hmode)
    as [w1 Hr].
  destruct (sendAudioToWhisper_world_independent uri default_retries
              (whisper script) w w1) as [Hvalue Hlog].
  assert (Hno : chat_requests (effects transcription) = [])
    by apply sendAudioToWhisper_chat_requests.
  destruct (rate_limited_attempts_start uri (whisper script) w) as [rest Hrest].
  exists rest.
  subst r. rewrite Hr, bind_after, after_after.
  fold transcription in Hvalue, Hlog, Hrest. rewrite <- Hvalue, <- Hlog.
  destruct (truthy (value transcription)) as [transcript|].
  - rewrite bind_after. cbn [update value world effects]. rewrite after_nil.
    match goal with |- context [sendToGpt transcript ?reply ?w'] =>
      exists (effects (sendToGpt transcript reply w'));
      pose proof (sendToGpt_chat_requests transcript reply w') as Hone end.
    rewrite effects_after, <- app_assoc.
    split; [exact Hrest|]. split; [exact Hno|]. split; [reflexivity|].
    split; [exact Hone|].
    rewrite !chat_requests_app, Hno, Hone. reflexivity.
  - exists []. rewrite effects_after, world_after, <- app_assoc.
    cbn [update effects world ui].
    split; [exact Hrest|]. split; [exact Hno|]. split; [reflexivity|].
    split; [reflexivity|]. split; [|reflexivity].
    rewrite !chat_requests_app, Hno. reflexivity.
Qed.

Lemma response_follows_a_nonempty_transcript_witness :
  chat_requests (effects (stopRecording hello_script recording_world)) = ["Hello"]
  /\ chat_requests (effects (stopRecording silent_script recording_world)) = []
  /\ loading (ui (world (stopRecording silent_script recording_world))) = false.
Proof.
  destruct (response_follows_a_nonempty_transcript hello_script recording_world
              (mkRecording (Some "file:///cache/recording.wav"))
              "file:///cache/recording.wav" eq_refl eq_refl eq_refl eq_refl)
    as (rest & answer & _ & _ & _ & Hanswer).
  destruct (response_follows_a_nonempty_transcript silent_script recording_world
              (mkRecording (Some "file:///cache/recording.wav"))
              "file:///cache/recording.wav" eq_refl eq_refl eq_refl eq_refl)
    as (rest' & answer' & _ & _ & _ & Hsilent).
  assert (Hhello : truthy (value (sendAudioToWhisper "file:///cache/recording.wav"
                                default_retries (whisper hello_script) recording_world))
                   = Some "Hello") by reflexivity.
  assert (Hempty : truthy (value (sendAudioToWhisper "file:///cache/recording.wav"
                                default_retries (whisper silent_script) recording_world))
                   = None) by reflexivity.
  rewrite Hhello in Hanswer. rewrite Hempty in Hsilent.
  split; [exact (proj2 Hanswer) | exact (proj2 Hsilent)].
Defined.

(** ** Rules for [triple] *)

Lemma triple_ret {A} (a : A) P : triple P (ret a) (fun _ => P).
Proof. intros w HP Hh. now split. Qed.

Lemma triple_bind {A B} (c : Task A) (k : A -> Task B) P R Q :
  triple P c R -> (forall a, triple (R a) (k a) Q) -> triple P (bind c k) Q.
Proof.
  intros Hc Hk w HP Hh. rewrite bind_after, value_after, world_after.
  destruct (Hc w HP Hh) as [HR Hh']. now apply Hk.
Qed.

Lemma triple_conseq {A} (c : Task A) (P P' : State -> Prop) (Q Q' : A -> State -> Prop) :
  (forall s, P' s -> P s) -> triple P c Q -> (forall a s, Q a s -> Q' a s) ->
  triple P' c Q'.
Proof.
  intros Hpre Hc Hpost w HP Hh. destruct (Hc w (Hpre _ HP) Hh). auto.
Qed.

Lemma triple_emit e P : triple P (emit e) (fun _ => P).
Proof. intros w HP Hh. now split. Qed.

Lemma triple_read {A} (f : World -> A) P : triple P (read f) (fun _ => P).
Proof. intros w HP Hh. now split. Qed.

Lemma triple_update f (P Q : State -> Prop) :
  (forall s, P s -> Q (f s)) -> triple P (update f) (fun _ => Q).
Proof. intros Hf w HP Hh. split; [now apply Hf | exact Hh]. Qed.

Lemma triple_await ms (P : State -> Prop) :
  (forall s, P s -> shown s) -> triple P (await ms) (fun _ => P).
Proof.
  intros Hshown w HP Hh. split; [exact HP|]. cbn.
  apply Forall_app. split; [exact Hh|]. constructor; [now apply Hshown | constructor].
Qed.

(** A step that touches neither the React state nor the history. *)
Lemma triple_frame {A} (c : Task A) P :
  (forall w, ui (world (c w)) = ui w /\ history (world (c w)) = history w) ->
  triple P c (fun _ => P).
Proof.
  intros Hframe w HP Hh. destruct (Hframe w) as [-> ->]. now split.
Qed.

(** Sequencing after a step that keeps the assertion. *)
Lemma triple_then {A B} (c : Task A) (k : A -> Task B) P Q :
  triple P c (fun _ => P) -> (forall a, triple P (k a) Q) -> triple P (bind c k) Q.
Proof. intros Hc Hk. now apply triple_bind with (R := fun _ => P). Qed.

Lemma triple_update_then {B} f (k : Task B) (P P' : State -> Prop) Q :
  (forall s, P s -> P' (f s)) -> triple P' k Q ->
  triple P (bind (update f) (fun _ => k)) Q.
Proof.
  intros Hf Hk. apply triple_bind with (R := fun _ => P'); [|intros _; exact Hk].
  now apply triple_update.
Qed.

Lemma triple_delay ms (P : State -> Prop) :
  (forall s, P s -> shown s) -> triple P (delay ms) (fun _ => P).
Proof.
  intros Hshown. unfold delay. apply triple_then; [apply triple_emit|].
  intros _. now apply triple_await.
Qed.

(** ** The displayed state *)

Lemma flags_shown r l a s :
  flags r l a s ->
  match r, l, a with
  | true, true, _ | true, _, true | _, true, true => False
  | _, _, _ => True
  end ->
  shown s.
Proof.
  unfold flags, shown, displayed_state. intros (-> & -> & ->).
  destruct r, l, a; intros H; try contradiction; discriminate.
Qed.

Lemma answering_shown s : answering s -> shown s.
Proof.
  unfold answering, shown, displayed_state. intros [-> H].
  destruct (loading s), (AIResponse s); try discriminate.
Qed.

Lemma settled_shown s : settled s -> shown s.
Proof.
  unfold settled, shown, displayed_state. intros [-> H].
  destruct (isRecording s), (AIResponse s); try discriminate.
Qed.

(** ** Each handler keeps the screen in one displayed state *)

Lemma for_attempts_triple uri retries endpoint P remaining :
  (forall s, P s -> shown s) ->
  forall attempt,
    triple P (for_attempts uri retries endpoint remaining attempt) (fun _ => P).
Proof.
  intros Hshown.
  induction remaining as [|remaining IH]; intros attempt; cbn [for_attempts].
  - apply triple_ret.
  - apply triple_then.
    + unfold post_transcription. apply triple_then; [apply triple_emit|]. intros _.
      apply triple_then; [now apply triple_await|]. intros _. apply triple_ret.
    + intros [data_text| |].
      * apply triple_ret.
      * destruct (attempt =? retries).
        -- apply triple_then; [apply triple_emit|]. intros _. apply triple_ret.
        -- apply triple_then; [apply triple_emit|]. intros _.
           apply triple_then; [now apply triple_delay|]. intros _. apply IH.
      * apply triple_then; [apply triple_emit|]. intros _.
        apply triple_then; [apply triple_emit|]. intros _. apply triple_ret.
Qed.

Lemma sendAudioToWhisper_triple uri retries endpoint P :
  (forall s, P s -> shown s) ->
  triple P (sendAudioToWhisper uri retries endpoint) (fun _ => P).
Proof.
  intros Hshown. unfold sendAudioToWhisper.
  apply triple_then; [now apply triple_delay|]. intros _.
  now apply for_attempts_triple.
Qed.

Lemma timeout_callback_triple :
  triple answering timeout_callback (fun _ => answering).
Proof.
  unfold timeout_callback.
  apply triple_then; [apply triple_emit|]. intros _.
  apply triple_update_then with (P' := answering); [|apply triple_emit].
  unfold answering. cbn. intros s [Hr _]. now split.
Qed.

Lemma post_chat_triple content own reply :
  triple answering (post_chat content own reply) (fun _ => answering).
Proof.
  unfold post_chat.
  apply triple_then; [apply triple_emit|]. intros _.
  apply triple_then; [apply triple_read|]. intros now.
  assert (Hexpire :
    triple answering
      (await (deadline own - now) ;;
       (fun w => mkOutcome tt (drop_timer own w) []) ;;
       timeout_callback ;; ret Canceled)
      (fun _ => answering)).
  { apply triple_then; [apply triple_await, answering_shown|]. intros _.
    apply triple_then; [apply triple_frame; now split|]. intros _.
    apply triple_then; [apply timeout_callback_triple|]. intros _.
    apply triple_ret. }
  destruct (chat_latency reply) as [latency|]; [|exact Hexpire].
  destruct (now + latency <? deadline own); [|exact Hexpire].
  apply triple_then; [apply triple_await, answering_shown|]. intros _.
  apply triple_ret.
Qed.

Lemma sendToGpt_triple inputText reply :
  triple answering (sendToGpt inputText reply)
    (fun _ s => isRecording s = false /\ loading s = false).
Proof.
  assert (Hcatch :
    triple answering
      (emit (ConsoleError "Error sending text to GPT:") ;;
       update (setLoading false) ;;
       emit (Alert "Error" "Failed to get AI response."))
      (fun _ s => isRecording s = false /\ loading s = false)).
  { apply triple_then; [apply triple_emit|]. intros _.
    apply triple_update_then
      with (P' := fun s => isRecording s = false /\ loading s = false);
      [|apply triple_emit].
    unfold answering. cbn. intros s [Hr _]. now split. }
  unfold sendToGpt.
  apply triple_then; [apply triple_frame; now split|]. intros timeout.
  apply triple_then; [apply triple_delay, answering_shown|]. intros _.
  apply triple_then; [apply post_chat_triple|].
  intros [[|aiResponse rest]| |];
    try (apply triple_then; [apply triple_frame; now split|]; intros _);
    try exact Hcatch.
  apply triple_update_then with (P' := answering);
    [unfold answering; cbn; tauto|].
  apply triple_update_then
    with (P' := fun s => isRecording s = false /\ AIResponse s = true);
    [unfold answering; cbn; tauto|].
  apply triple_update_then with (P' := flags false false true);
    [unfold flags; cbn; tauto|].
  unfold speakText.
  apply triple_bind with (R := fun _ => flags false false true).
  - apply triple_update_then with (P' := flags false false true);
      [unfold flags; cbn; tauto|].
    apply triple_frame. now split.
  - intros _.
    apply triple_conseq with (P := flags false false true)
                             (Q := fun _ => flags false false true); auto.
    + apply triple_await. intros s Hs. now apply (flags_shown _ _ _ _ Hs).
    + unfold flags. tauto.
Qed.

Lemma getMicrophonePermission_triple reply P :
  (forall s, P s -> shown s) ->
  triple P (getMicrophonePermission reply) (fun _ => P).
Proof.
  intros Hshown. unfold getMicrophonePermission.
  apply triple_then; [apply triple_emit|]. intros _.
  apply triple_then; [now apply triple_await|]. intros _.
  destruct reply.
  - apply triple_ret.
  - apply triple_then; [apply triple_emit|]. intros _. apply triple_ret.
  - apply triple_then; [apply triple_emit|]. intros _.
    apply triple_then; [apply triple_emit|]. intros _. apply triple_ret.
Qed.

Lemma idle_shown s : flags false false false s -> shown s.
Proof. intros H. now apply (flags_shown _ _ _ _ H). Qed.

Lemma recording_shown s : flags true false false s -> shown s.
Proof. intros H. now apply (flags_shown _ _ _ _ H). Qed.

Lemma processing_shown s : flags false true false s -> shown s.
Proof. intros H. now apply (flags_shown _ _ _ _ H). Qed.

Lemma startRecording_triple key script :
  triple (flags false false false) (startRecording key script) (fun _ => settled).
Proof.
  assert (Hidle : forall s, flags false false false s -> settled s).
  { unfold flags, settled. intros s (-> & -> & ->). now split. }
  assert (Hrecording : forall s, flags true false false s -> settled s).
  { unfold flags, settled. intros s (-> & -> & ->). now split. }
  unfold startRecording. destruct (truthy key) as [_|].
  2:{ apply triple_conseq with (P := flags false false false)
                               (Q := fun _ => flags false false false); auto.
      apply triple_emit. }
  apply triple_then; [apply getMicrophonePermission_triple, idle_shown|].
  intros [|]; cbn [negb].
  2:{ apply triple_conseq with (P := flags false false false)
                               (Q := fun _ => flags false false false); auto.
      apply triple_ret. }
  apply triple_then; [apply triple_emit|]. intros _.
  apply triple_then; [apply triple_await, idle_shown|]. intros _.
  destruct (record_mode_ok script).
  - apply triple_update_then with (P' := flags true false false);
      [unfold flags; cbn; tauto|].
    apply triple_then; [apply triple_emit|]. intros _.
    apply triple_then; [apply triple_await, recording_shown|]. intros _.
    destruct (created script) as [r|].
    + apply triple_update. unfold flags, settled. cbn. intros s (-> & -> & ->).
      now split.
    + apply triple_conseq with (P := flags true false false)
                               (Q := fun _ => flags true false false); auto.
      apply triple_then; [apply triple_emit|]. intros _. apply triple_emit.
  - apply triple_conseq with (P := flags false false false)
                             (Q := fun _ => flags false false false); auto.
    apply triple_then; [apply triple_emit|]. intros _. apply triple_emit.
Qed.

Lemma stopRecording_triple script :
  triple (flags true false false) (stopRecording script) (fun _ => settled).
Proof.
  assert (Hcatch :
    triple (flags false true false)
      (emit (ConsoleError "Failed to stop recording:") ;;
       emit (Alert "Error" "Failed to process recording.") ;;
       update (setLoading false))
      (fun _ => settled)).
  { apply triple_then; [apply triple_emit|]. intros _.
    apply triple_then; [apply triple_emit|]. intros _.
    apply triple_update. unfold flags, settled. cbn. intros s (-> & _ & ->).
    now split. }
  unfold stopRecording.
  apply triple_then; [apply triple_read|]. intros rec.
  apply triple_update_then with (P' := flags false false false);
    [unfold flags; cbn; tauto|].
  apply triple_update_then with (P' := flags false true false);
    [unfold flags; cbn; tauto|].
  apply triple_then.
  { destruct rec as [r|].
    - apply triple_then; [apply triple_emit|]. intros _.
      apply triple_then; [apply triple_await, processing_shown|]. intros _.
      apply triple_ret.
    - apply triple_then; [apply triple_await, processing_shown|]. intros _.
      apply triple_ret. }
  intros [|]; cbn [negb]; [|exact Hcatch].
  apply triple_then; [apply triple_emit|]. intros _.
  apply triple_then; [apply triple_await, processing_shown|]. intros _.
  destruct (playback_mode_ok script); cbn [negb]; [|exact Hcatch].
  destruct (truthy _) as [uri|]; [|exact Hcatch].
  apply triple_then; [apply sendAudioToWhisper_triple, processing_shown|].
  intros transcript. destruct (truthy transcript) as [transcript'|].
  - apply triple_update_then with (P' := answering).
    + unfold flags, answering. cbn. intros s (-> & _ & ->). split; [reflexivity|].
      apply andb_false_r.
    + apply triple_conseq with (P := answering)
          (Q := fun _ s => isRecording s = false /\ loading s = false); auto.
      * apply sendToGpt_triple.
      * unfold settled. intros _ s [-> ->]. now split.
  - apply triple_update. unfold flags, settled. cbn. intros s (-> & _ & ->).
    now split.
Qed.

Lemma pressBack_triple : triple settled pressBack (fun _ => settled).
Proof.
  unfold pressBack.
  apply triple_update_then with (P' := fun s => loading s = false);
    [unfold settled; cbn; tauto|].
  apply triple_update_then
    with (P' := fun s => loading s = false /\ AIResponse s = false);
    [cbn; tauto|].
  apply triple_update. unfold settled. cbn. intros s [-> ->].
  split; [reflexivity | apply andb_false_r].
Qed.

Lemma pressRegenerate_triple reply :
  triple (flags false false true) (pressRegenerate reply) (fun _ => settled).
Proof.
  unfold pressRegenerate.
  apply triple_then; [apply triple_read|]. intros shown_text.
  apply triple_conseq with (P := answering)
      (Q := fun _ s => isRecording s = false /\ loading s = false).
  - unfold flags, answering. intros s (-> & -> & _). now split.
  - apply sendToGpt_triple.
  - unfold settled. intros _ s [-> ->]. now split.
Qed.

Lemma pressReplay_triple : triple settled pressReplay (fun _ => settled).
Proof.
  unfold pressReplay, speakText.
  apply triple_then; [apply triple_read|]. intros shown_text.
  apply triple_update_then with (P' := settled); [unfold settled; cbn; tauto|].
  apply triple_frame. now split.
Qed.

Lemma speech_done_triple : triple settled speech_done (fun _ => settled).
Proof.
  unfold speech_done.
  apply triple_then; [apply triple_frame; now split|]. intros _.
  apply triple_update. unfold settled. cbn. tauto.
Qed.

Lemma run_callbacks_triple due :
  triple settled (run_callbacks due) (fun _ => settled).
Proof.
  induction due as [|t due IH]; cbn [run_callbacks]; [apply triple_ret|].
  apply triple_then; [|intros _; exact IH].
  unfold timeout_callback.
  apply triple_then; [apply triple_emit|]. intros _.
  apply triple_update_then with (P' := settled); [|apply triple_emit].
  unfold settled. cbn. intros s [_ H]. now split.
Qed.

Lemma elapse_triple ms : triple settled (elapse ms) (fun _ => settled).
Proof.
  intros w Hsettled Hhistory. unfold elapse.
  now apply run_callbacks_triple.
Qed.

(** What being rendered says about the flags. *)
Lemma rendered_flags c s :
  rendered c s = true ->
  match c with
  | MicrophoneControl => flags false false false s
  | StopControl => isRecording s = true /\ loading s = false
  | BackControl | RegenerateControl | ReplayControl => AIResponse s = true
  end.
Proof.
  unfold rendered, render, flags.
  destruct c, (isRecording s), (loading s), (AIResponse s); cbn;
    intros H; try discriminate; auto.
Qed.

Lemma handler_triple key e w :
  enabled e w = true -> settled (ui w) -> Forall shown (history w) ->
  settled (ui (world (handler key e w)))
  /\ Forall shown (history (world (handler key e w))).
Proof.
  intros Henabled Hsettled Hhistory.
  assert (Hs := Hsettled). destruct Hs as [Hloading Hboth].
  destruct e as [script|script| |reply| | |ms]; cbn [handler enabled] in *.
  - apply startRecording_triple; [|assumption].
    exact (rendered_flags _ _ Henabled).
  - apply stopRecording_triple; [|assumption].
    destruct (rendered_flags _ _ Henabled) as [Hr Hl].
    rewrite Hr in Hboth. cbn in Hboth. unfold flags. auto.
  - now apply pressBack_triple.
  - apply pressRegenerate_triple; [|assumption].
    pose proof (rendered_flags _ _ Henabled) as Ha. cbn in Ha.
    rewrite Ha, andb_true_r in Hboth. unfold flags. auto.
  - now apply pressReplay_triple.
  - now apply speech_done_triple.
  - now apply elapse_triple.
Qed.

Lemma run_reachable key es : forall w w' log,
  reachable key w -> run key es w = Some (w', log) -> reachable key w'.
Proof.
  induction es as [|e es IH]; intros w w' log Hw Hrun; cbn in Hrun.
  - now inversion Hrun; subst.
  - destruct (enabled e w) eqn:Henabled; [|discriminate].
    destruct (run key es (world (handler key e w))) as [[w'' log']|] eqn:Hrest;
      [|discriminate].
    inversion Hrun; subst. eapply IH; [|exact Hrest].
    now apply reachable_step.
Qed.

(** ** The interaction state *)

(** The two halves of [sendToGpt] put together are [sendToGpt], when the
    request resolves before the deadline. *)
Lemma sendToGpt_in_two_steps inputText reply w latency choices :
  chat_latency reply = Some latency ->
  chat_result reply = ChatOk choices ->
  globalDelay + latency < gpt_timeout ->
  sendToGpt inputText reply w
  = (timeout <- chat_requested inputText ;; chat_resolved timeout latency choices) w.
Proof.
  intros Hlatency Hresult Hlt. unfold chat_requested, chat_resolved. run_task.
  rewrite Hlatency.
  replace (clock w + globalDelay + latency <? clock w + gpt_timeout) with true
    by (symmetry; apply N.ltb_lt; lia).
  cbn. rewrite Hresult. now destruct choices.
Qed.

(** C9 (the code departs from the claim). Pressing back while the
    response is being spoken clears [AIResponse] and leaves [AISpeaking]
    set, and the microphone is offered again; pressed, it sets
    [isRecording] next to [AISpeaking].  Neither combination is one of the
    five states.  And since the regenerate control, unlike the stop
    control, does not set [loading], back and then the microphone can be
    pressed while its request is pending: the reply then sets [AIResponse]
    next to [isRecording]. *)
Theorem speaking_flag_outlives_the_response :
  (exists w log,
      run demo_key [PressMicrophone granted_script; PressStop hello_script; PressBack]
        initial_world = Some (w, log)
      /\ AIResponse (ui w) = false /\ AISpeaking (ui w) = true
      /\ interaction_state (ui w) = None)
  /\ (exists w log,
      run demo_key [PressMicrophone granted_script; PressStop hello_script; PressBack;
                    PressMicrophone granted_script]
        initial_world = Some (w, log)
      /\ isRecording (ui w) = true /\ AISpeaking (ui w) = true
      /\ interaction_state (ui w) = None)
  /\ ~ (forall w, reachable demo_key w -> interaction_state (ui w) <> None)
  /\ (let requested := chat_requested (text (ui response_world)) response_world in
      let pending := world requested in
      let emptied := world (pressBack pending) in
      let reopened := world (startRecording demo_key granted_script emptied) in
      let answered :=
        world (chat_resolved (value requested) 1500 ["Hello again!"] reopened) in
      rendered RegenerateControl (ui response_world) = true
      /\ loading (ui pending) = false
      /\ rendered BackControl (ui pending) = true
      /\ rendered MicrophoneControl (ui emptied) = true
      /\ isRecording (ui answered) = true
      /\ AIResponse (ui answered) = true
      /\ interaction_state (ui answered) = None
      /\ displayed_state (ui answered) = None).
Proof.
  split; [|split; [|split]].
  - eexists. eexists. split; [vm_compute; reflexivity|]. repeat split.
  - eexists. eexists. split; [vm_compute; reflexivity|]. repeat split.
  - intros Hclaim.
    destruct (run demo_key
                [PressMicrophone granted_script; PressStop hello_script; PressBack]
                initial_world) as [[w log]|] eqn:Hrun; [|discriminate].
    apply (Hclaim w).
    + exact (run_reachable _ _ _ _ _ (reachable_initial _) Hrun).
    + vm_compute in Hrun. inversion Hrun; subst. reflexivity.
  - cbn zeta. repeat split.
Qed.

(** * Further properties of the handlers *)

(** ** The transcription client, whatever the endpoint does *)

Lemma for_attempts_uploads uri retries endpoint remaining : forall attempt w,
  let l := uploads (effects (for_attempts uri retries endpoint remaining attempt w)) in
  (length l <= remaining)%nat
  /\ l = repeat uri (length l)
  /\ (remaining <> 0%nat -> l <> []).
Proof.
  induction remaining as [|remaining IH]; intros attempt w; cbn.
  - split; [lia|]. split; [reflexivity|]. intros H. now elim H.
  - destruct (whisper_result (endpoint attempt)); cbn.
    + split; [lia|]. split; [reflexivity | discriminate].
    + destruct (attempt =? retries); cbn.
      * split; [lia|]. split; [reflexivity | discriminate].
      * match goal with |- context [for_attempts _ _ _ _ ?a ?w'] =>
          specialize (IH a w'); destruct (for_attempts _ _ _ _ a w') end.
        cbn in *. destruct IH as (Hlen & Hrep & _).
        split; [lia|]. split; [now f_equal | discriminate].
    + split; [lia|]. split; [reflexivity | discriminate].
Qed.

(** X1. A call to [sendAudioToWhisper] uploads at most [retries] times,
    always the locator it was given, and at least once when [retries] is
    not zero. *)
Theorem uploads_stay_within_the_budget uri retries endpoint w :
  let l := uploads (effects (sendAudioToWhisper uri retries endpoint w)) in
  (length l <= N.to_nat retries)%nat
  /\ l = repeat uri (length l)
  /\ (retries <> 0 -> l <> []).
Proof.
  rewrite sendAudioToWhisper_after, effects_after. cbn [app uploads].
  destruct (for_attempts_uploads uri retries endpoint (N.to_nat retries) 1
              (world (await globalDelay w))) as (Hlen & Hrep & Hsome).
  split; [exact Hlen|]. split; [exact Hrep|].
  intros Hretries. apply Hsome. lia.
Qed.

Lemma for_attempts_alerts uri retries endpoint remaining : forall attempt w,
  N.of_nat remaining + attempt = retries + 1 ->
  remaining <> 0%nat ->
  let r := for_attempts uri retries endpoint remaining attempt w in
  match value r with
  | Some _ => alerts (effects r) = []
  | None => alerts (effects r) = [rate_limit_notice]
            \/ alerts (effects r) = [transcription_failure_notice]
  end.
Proof.
  induction remaining as [|remaining IH]; intros attempt w Hcount Hsome;
    [contradiction|]. cbn.
  destruct (whisper_result (endpoint attempt)); cbn; auto.
  destruct (attempt =? retries) eqn:Hlast; cbn; auto.
  apply N.eqb_neq in Hlast.
  match goal with |- context [for_attempts _ _ _ _ ?a ?w'] =>
    specialize (IH a w' ltac:(lia) ltac:(lia));
    destruct (for_attempts _ _ _ _ a w') as [v w'' log] end.
  cbn in *. exact IH.
Qed.

(** X2. A call that returns a transcript shows no notice; a call that
    returns [null] shows exactly one, the rate-limit notice or the generic
    transcription notice.  (With a budget of zero attempts the loop body
    never runs: [null] is returned after the warm-up wait, silently.) *)
Theorem transcription_failures_show_one_notice uri retries endpoint w :
  let r := sendAudioToWhisper uri retries endpoint w in
  match value r with
  | Some _ => alerts (effects r) = []
  | None =>
      if retries =? 0 then effects r = [Delay globalDelay]
      else alerts (effects r) = [rate_limit_notice]
           \/ alerts (effects r) = [transcription_failure_notice]
  end.
Proof.
  cbn zeta. rewrite sendAudioToWhisper_after, value_after, effects_after.
  cbn [app alerts].
  destruct (N.to_nat retries) as [|remaining] eqn:Hretries.
  - cbn. replace (retries =? 0) with true by (symmetry; apply N.eqb_eq; lia).
    reflexivity.
  - pose proof (for_attempts_alerts uri retries endpoint (S remaining) 1
                  (world (await globalDelay w)) ltac:(lia) ltac:(lia)) as H.
    cbn zeta in H.
    destruct (value (for_attempts _ _ _ _ _ _)); [exact H|].
    replace (retries =? 0) with false by (symmetry; apply N.eqb_neq; lia).
    exact H.
Qed.

(** X3. [sendAudioToWhisper] only lets time pass, at least the warm-up
    delay: the React state, the pending timers and the queued utterances
    are as it found them. *)
Theorem transcription_leaves_the_screen_alone uri retries endpoint w :
  let r := sendAudioToWhisper uri retries endpoint w in
  ui (world r) = ui w
  /\ timers (world r) = timers w
  /\ utterances (world r) = utterances w
  /\ clock w + globalDelay <= clock (world r).
Proof.
  cbn zeta. rewrite sendAudioToWhisper_after, world_after.
  destruct (for_attempts_frame uri retries endpoint (N.to_nat retries) 1
              (world (await globalDelay w))) as (Hui & Htimers & _ & Hutterances).
  pose proof (for_attempts_clock uri retries endpoint (N.to_nat retries) 1
                (world (await globalDelay w))) as Hclock.
  cbn in *. auto.
Qed.

Lemma waits_of_a_call uri endpoint w (k : nat) :
  (k < 3)%nat ->
  (forall j, (1 <= j <= k)%nat ->
     whisper_result (endpoint (N.of_nat j)) = Whisper429) ->
  whisper_result (endpoint (N.of_nat (S k))) <> Whisper429 \/ k = 2%nat ->
  waits (effects (sendAudioToWhisper uri default_retries endpoint w))
  = map (fun j => 2 ^ (1 + N.of_nat j) * 1000) (seq 0 k).
Proof.
  intros Hk H429 Hlast.
  rewrite (sendAudioToWhisper_rounds uri endpoint w k Hk H429), effects_after.
  cbn [app waits]. rewrite N.eqb_refl, waits_backoff_rounds.
  destruct (3 - k)%nat as [|remaining] eqn:Hrem; [lia|].
  destruct (whisper_result (endpoint (N.of_nat (S k)))) as [t| |] eqn:Hreply.
  - rewrite (for_attempts_ok _ _ _ _ _ _ t Hreply). apply app_nil_r.
  - destruct Hlast as [Hlast | ->]; [congruence|].
    change (N.of_nat 3) with default_retries in *.
    rewrite for_attempts_exhausted by exact Hreply. apply app_nil_r.
  - rewrite (for_attempts_error _ _ _ _ _ _ Hreply). apply app_nil_r.
Qed.

(** X4. Whatever the endpoint answers, the backoff waits of a call with
    the default budget are none, 2 s, or 2 s then 4 s: a call never waits
    more than six seconds between its attempts. *)
Theorem backoff_waits_are_bounded uri endpoint w :
  exists n, (n <= 2)%nat
    /\ waits (effects (sendAudioToWhisper uri default_retries endpoint w))
       = firstn n [2000; 4000].
Proof.
  destruct (whisper_result (endpoint 1)) as [t1| |] eqn:H1.
  1,3: exists 0%nat; split; [lia|];
       rewrite (waits_of_a_call uri endpoint w 0);
       [reflexivity | lia | intros; lia | left; cbn; congruence].
  assert (Hfirst : forall j, (1 <= j <= 1)%nat ->
            whisper_result (endpoint (N.of_nat j)) = Whisper429).
  { intros j Hj. replace j with 1%nat by lia. exact H1. }
  destruct (whisper_result (endpoint 2)) as [t2| |] eqn:H2.
  1,3: exists 1%nat; split; [lia|];
       rewrite (waits_of_a_call uri endpoint w 1);
       [reflexivity | lia | exact Hfirst | left; cbn; congruence].
  exists 2%nat. split; [lia|].
  rewrite (waits_of_a_call uri endpoint w 2); [reflexivity | lia | | now right].
  intros j Hj. assert (Hj' : j = 1%nat \/ j = 2%nat) by lia.
  destruct Hj' as [-> | ->]; assumption.
Qed.

(** ** The response client, whatever the endpoint does *)

(** X5. A call to [sendToGpt] is over at the latest ten seconds after it
    began, and not before the warm-up delay; when it is over, [loading] is
    clear, and [isRecording] and the recording handle are as before. *)
Theorem generation_settles_within_the_deadline inputText reply w :
  let r := sendToGpt inputText reply w in
  clock w + globalDelay <= clock (world r)
  /\ clock (world r) <= clock w + gpt_timeout
  /\ loading (ui (world r)) = false
  /\ isRecording (ui (world r)) = isRecording (ui w)
  /\ recording (ui (world r)) = recording (ui w).
Proof.
  run_task. unfold globalDelay, gpt_timeout.
  destruct (chat_latency reply) as [latency|]; [|cbn; repeat split; lia].
  destruct (clock w + 500 + latency <? clock w + 10000) eqn:Hltb;
    [|cbn; repeat split; lia].
  apply N.ltb_lt in Hltb. cbn.
  destruct (chat_result reply) as [[|aiResponse rest]|]; cbn; repeat split; lia.
Qed.

(** X6. A call to [sendToGpt] has one of two outcomes.  Either the first
    completion is stored as the displayed text, flagged as a response and
    handed to the speech engine, with no notice; or nothing is spoken, the
    React state changes in [loading] only, and the generic failure notice
    is shown, after the timeout notice when the timer fired. *)
Theorem generation_answers_or_changes_nothing inputText reply w :
  let r := sendToGpt inputText reply w in
  (exists aiResponse rest,
      chat_result reply = ChatOk (aiResponse :: rest)
      /\ ui (world r)
         = setAISpeaking true
             (setLoading false (setAIResponse true (setText aiResponse (ui w))))
      /\ spoken (effects r) = [aiResponse]
      /\ utterances (world r) = S (utterances w)
      /\ alerts (effects r) = [])
  \/ (ui (world r) = setLoading false (ui w)
      /\ spoken (effects r) = []
      /\ utterances (world r) = utterances w
      /\ (alerts (effects r) = [generation_failure_notice]
          \/ alerts (effects r) = [timeout_notice; generation_failure_notice])).
Proof.
  run_task.
  destruct (chat_latency reply) as [latency|];
    [|right; cbn; repeat split; now right].
  destruct (_ <? _); [|right; cbn; repeat split; now right].
  cbn. destruct (chat_result reply) as [[|aiResponse rest]|]; cbn.
  - right. repeat split. now left.
  - left. exists aiResponse, rest. repeat split.
  - right. repeat split. now left.
Qed.

(** X7. A reply that arrives in time but carries no completion is a
    failure like any other, except that the timer has been cleared by
    then: the generic notice is shown, [loading] is cleared, nothing is
    displayed or spoken, and no timer of the call stays behind. *)
Theorem a_reply_without_choices_is_a_failure inputText reply w latency :
  timers_fresh w ->
  chat_latency reply = Some latency ->
  globalDelay + latency < gpt_timeout ->
  chat_result reply = ChatOk [] ->
  let r := sendToGpt inputText reply w in
  effects r
  = [SetTimeout gpt_timeout; Delay globalDelay; PostChat inputText; ClearTimeout;
     ConsoleError "Error sending text to GPT:"; generation_failure_notice]
  /\ ui (world r) = setLoading false (ui w)
  /\ timers (world r) = timers w
  /\ utterances (world r) = utterances w.
Proof.
  intros Hfresh Hlatency Hlt Hresult. run_task. rewrite Hlatency.
  replace (clock w + globalDelay + latency <? clock w + gpt_timeout) with true
    by (symmetry; apply N.ltb_lt; lia).
  cbn. rewrite Hresult. cbn. rewrite drop_own_timer by assumption.
  repeat split.
Qed.

Lemma a_reply_without_choices_is_a_failure_witness :
  let r := sendToGpt "Hello" no_choices processing_world in
  effects r
  = [SetTimeout 10000; Delay 500; PostChat "Hello"; ClearTimeout;
     ConsoleError "Error sending text to GPT:";
     Alert "Error" "Failed to get AI response."]
  /\ timers (world r) = []
  /\ text (ui (world r)) = "Hello"
  /\ AIResponse (ui (world r)) = false.
Proof.
  intros r.
  assert (Hfresh : timers_fresh processing_world) by constructor.
  assert (Hlt : globalDelay + 1200 < gpt_timeout) by reflexivity.
  pose proof (a_reply_without_choices_is_a_failure "Hello" no_choices
                processing_world 1200 Hfresh eq_refl Hlt eq_refl)
    as (Hlog & Hui & Htimers & _).
  fold r in Hlog, Hui, Htimers.
  split; [exact Hlog|]. split; [exact Htimers|]. rewrite Hui. split; reflexivity.
Defined.

(** ** The recorder controller *)

(** X8. [startRecording] sets [isRecording] and asks for a recording
    exactly when the credential is present, the permission is granted and
    the audio mode could be set.  Otherwise the React state is untouched,
    no recording is asked for, and exactly one notice says why. *)
Theorem the_microphone_opens_only_when_ready key script w :
  let r := startRecording key script w in
  if ready key script then
    isRecording (ui (world r)) = true
    /\ In CreateRecording (effects r)
    /\ match created script with
       | Some rec =>
           recording (ui (world r)) = Some rec /\ alerts (effects r) = []
       | None =>
           recording (ui (world r)) = recording (ui w)
           /\ alerts (effects r) = [start_failure_notice]
       end
  else
    ui (world r) = ui w
    /\ ~ In CreateRecording (effects r)
    /\ length (alerts (effects r)) = 1%nat.
Proof.
  unfold startRecording, ready, getMicrophonePermission, bind, emit, await, update, ret.
  destruct (truthy key) as [k|]; cbn.
  2:{ repeat split. intros [H|[]]; discriminate. }
  destruct (permission script); cbn.
  2,3: repeat split; intros H; cbn in H; intuition discriminate.
  destruct (record_mode_ok script); cbn.
  2:{ repeat split. intros H; cbn in H; intuition discriminate. }
  destruct (created script) as [rec|]; cbn; repeat split; auto.
Qed.

(** X9. Without a usable recording ([createAsync] never delivered one,
    it cannot be stopped, the audio mode cannot be restored, or it has no
    URI) [stopRecording] contacts neither endpoint: it shows its failure
    notice once and leaves both [isRecording] and [loading] clear. *)
Theorem an_unusable_recording_reaches_no_endpoint script w :
  recording (ui w) = None
  \/ stop_ok script = false
  \/ playback_mode_ok script = false
  \/ (exists rec, recording (ui w) = Some rec /\ truthy (getURI rec) = None) ->
  let r := stopRecording script w in
  uploads (effects r) = []
  /\ chat_requests (effects r) = []
  /\ alerts (effects r) = [stop_failure_notice]
  /\ ui (world r) = setLoading false (setIsRecording false (ui w)).
Proof.
  intros Hunusable.
  unfold stopRecording, bind, read, emit, await, update, ret. cbn.
  destruct (recording (ui w)) as [rec|] eqn:Hrec; cbn.
  - destruct (stop_ok script) eqn:Hstop; cbn; [|repeat split].
    destruct (playback_mode_ok script) eqn:Hmode; cbn; [|repeat split].
    destruct Hunusable as [H|[H|[H|(rec' & Hrec' & Huri)]]]; try discriminate.
    inversion Hrec'; subst rec'. rewrite Huri. cbn. repeat split.
  - destruct (playback_mode_ok script); cbn; repeat split.
Qed.

Lemma an_unusable_recording_reaches_no_endpoint_witness :
  let r := stopRecording unload_fails recording_world in
  effects r
  = [StopAndUnload; ConsoleError "Failed to stop recording:";
     Alert "Error" "Failed to process recording."]
  /\ uploads (effects r) = []
  /\ displayed_state (ui (world r)) = Some Idle.
Proof.
  intros r.
  assert (Hunusable :
            recording (ui recording_world) = None
            \/ stop_ok unload_fails = false
            \/ playback_mode_ok unload_fails = false
            \/ (exists rec, recording (ui recording_world) = Some rec
                            /\ truthy (getURI rec) = None))
    by (right; left; reflexivity).
  pose proof (an_unusable_recording_reaches_no_endpoint unload_fails
                recording_world Hunusable) as (Huploads & _ & _ & Hui).
  fold r in Huploads, Hui.
  split; [reflexivity|]. split; [exact Huploads|]. rewrite Hui. reflexivity.
Defined.

(** ** The controller *)

Lemma reachable_settled key w :
  reachable key w -> settled (ui w) /\ Forall shown (history w).
Proof.
  induction 1 as [|w e _ IH Henabled].
  - split; [now split | constructor].
  - destruct IH as [Hsettled Hhistory]. now apply handler_triple.
Qed.

Lemma render_displayed s state :
  displayed_state s = Some state -> render s = controls_of state.
Proof.
  unfold displayed_state, render.
  destruct (isRecording s), (loading s), (AIResponse s), (AISpeaking s);
    intros H; inversion H; reflexivity.
Qed.

(** X10. With handlers run one at a time, what the screen offers is
    decided by the displayed state, between handlers and at every
    suspension of one: the microphone alone in Idle, the stop control alone
    in Recording, nothing in Processing, and back, regenerate and replay
    while a response is displayed.  The microphone is never offered next to
    the stop control or to a response. *)
Theorem the_controls_follow_the_displayed_state key w :
  reachable key w ->
  (exists state,
      displayed_state (ui w) = Some state /\ render (ui w) = controls_of state)
  /\ Forall (fun s => exists state,
                 displayed_state s = Some state /\ render s = controls_of state)
            (history w).
Proof.
  intros Hreachable.
  destruct (reachable_settled key w Hreachable) as [Hsettled Hhistory].
  assert (Hcontrols : forall s, shown s ->
            exists state, displayed_state s = Some state /\ render s = controls_of state).
  { unfold shown. intros s Hs. destruct (displayed_state s) as [state|] eqn:Hstate;
      [|contradiction].
    exists state. split; [reflexivity | now apply render_displayed]. }
  split; [apply Hcontrols, settled_shown, Hsettled|].
  eapply Forall_impl; [exact Hcontrols | exact Hhistory].
Qed.

Lemma the_controls_follow_the_displayed_state_witness :
  let w := world (handler demo_key (PressStop hello_script)
                    (world (handler demo_key (PressMicrophone granted_script)
                              initial_world))) in
  render (ui w) = [BackControl; RegenerateControl; ReplayControl]
  /\ Forall (fun s => exists state,
                 displayed_state s = Some state /\ render s = controls_of state)
            (history w).
Proof.
  intros w.
  assert (Hreachable : reachable demo_key w).
  { apply reachable_step; [apply reachable_step; [apply reachable_initial|]|];
      reflexivity. }
  destruct (the_controls_follow_the_displayed_state demo_key w Hreachable)
    as ((state & Hstate & Hrender) & Hhistory).
  split; [|exact Hhistory].
  rewrite Hrender.
  assert (Hspeaking : displayed_state (ui w) = Some Speaking) by reflexivity.
  rewrite Hspeaking in Hstate. inversion Hstate. reflexivity.
Defined.

(** X11. The back control empties the display and brings the microphone
    back, and does nothing else: it logs nothing, so the speech engine is
    not stopped, and the queued utterances, [AISpeaking] and the pending
    timers are as before. *)
Theorem back_returns_to_the_microphone w :
  loading (ui w) = false ->
  let r := pressBack w in
  render (ui (world r)) = [MicrophoneControl]
  /\ text (ui (world r)) = ""
  /\ effects r = []
  /\ utterances (world r) = utterances w
  /\ AISpeaking (ui (world r)) = AISpeaking (ui w)
  /\ timers (world r) = timers w.
Proof.
  intros Hloading. unfold pressBack, bind, update, render. cbn.
  rewrite Hloading. repeat split.
Qed.

Lemma back_returns_to_the_microphone_witness :
  let w := world (handler demo_key (PressStop hello_script)
                    (world (handler demo_key (PressMicrophone granted_script)
                              initial_world))) in
  render (ui (world (pressBack w))) = [MicrophoneControl]
  /\ AISpeaking (ui (world (pressBack w))) = true
  /\ utterances (world (pressBack w)) = 1%nat.
Proof.
  intros w.
  assert (Hloading : loading (ui w) = false) by reflexivity.
  pose proof (back_returns_to_the_microphone w Hloading)
    as (Hrender & _ & _ & Hutterances & Hspeaking & _).
  split; [exact Hrender|]. split.
  - rewrite Hspeaking. reflexivity.
  - rewrite Hutterances. reflexivity.
Defined.

(** ** Bookkeeping kept by every handler *)

Lemma preserves_ret {A} (I : World -> Prop) (a : A) : preserves I (ret a).
Proof. intros w Hw. exact Hw. Qed.

Lemma preserves_bind {A B} (I : World -> Prop) (c : Task A) (k : A -> Task B) :
  preserves I c -> (forall a, preserves I (k a)) -> preserves I (bind c k).
Proof.
  intros Hc Hk w Hw. rewrite bind_after, world_after. now apply Hk, Hc.
Qed.

Lemma preserves_emit (I : World -> Prop) e : preserves I (emit e).
Proof. intros w Hw. exact Hw. Qed.

Lemma preserves_read {A} (I : World -> Prop) (f : World -> A) : preserves I (read f).
Proof. intros w Hw. exact Hw. Qed.

Lemma world_ok_await ms : preserves world_ok (await ms).
Proof.
  intros w (Hfresh & Hdue & Hspeaking). split; [exact Hfresh|]. split; [|exact Hspeaking].
  cbn. eapply Forall_impl; [|exact Hdue]. cbn. intros t Ht. lia.
Qed.

Lemma world_ok_update f :
  (forall s, AISpeaking (f s) = true -> AISpeaking s = true) ->
  preserves world_ok (update f).
Proof.
  intros Hf w (Hfresh & Hdue & Hspeaking).
  split; [exact Hfresh|]. split; [exact Hdue|]. cbn. auto.
Qed.

Lemma world_ok_speakText utterance : preserves world_ok (speakText utterance).
Proof.
  intros w (Hfresh & Hdue & Hspeaking).
  split; [exact Hfresh|]. split; [exact Hdue|]. cbn. discriminate.
Qed.

Lemma world_ok_speech_done : preserves world_ok speech_done.
Proof.
  intros w (Hfresh & Hdue & Hspeaking).
  split; [exact Hfresh|]. split; [exact Hdue|]. cbn. discriminate.
Qed.

Lemma world_ok_setTimeout : preserves world_ok (setTimeout gpt_timeout).
Proof.
  intros w (Hfresh & Hdue & Hspeaking). unfold world_ok, timers_fresh in *. cbn.
  split; [|split; [|exact Hspeaking]]; apply Forall_app; split.
  - eapply Forall_impl; [|exact Hfresh]. cbn. intros t Ht. lia.
  - constructor; [cbn; lia | constructor].
  - exact Hdue.
  - constructor; [cbn; lia | constructor].
Qed.

Lemma world_ok_drop_timer t w : world_ok w -> world_ok (drop_timer t w).
Proof.
  intros (Hfresh & Hdue & Hspeaking). unfold world_ok, timers_fresh in *. cbn.
  split; [|split; [|exact Hspeaking]];
    apply Forall_forall; intros t' Hin; apply filter_In in Hin;
    destruct Hin as [Hin _].
  - exact (proj1 (Forall_forall _ _) Hfresh t' Hin).
  - exact (proj1 (Forall_forall _ _) Hdue t' Hin).
Qed.

Lemma world_ok_clearTimeout t : preserves world_ok (clearTimeout t).
Proof. intros w Hw. now apply world_ok_drop_timer. Qed.

Lemma world_ok_delay ms : preserves world_ok (delay ms).
Proof.
  unfold delay. apply preserves_bind; [apply preserves_emit|].
  intros _. apply world_ok_await.
Qed.

Lemma world_ok_timeout_callback : preserves world_ok timeout_callback.
Proof.
  unfold timeout_callback.
  apply preserves_bind; [apply preserves_emit|]. intros _.
  apply preserves_bind; [now apply world_ok_update|]. intros _.
  apply preserves_emit.
Qed.

Lemma world_ok_for_attempts uri retries endpoint remaining : forall attempt,
  preserves world_ok (for_attempts uri retries endpoint remaining attempt).
Proof.
  induction remaining as [|remaining IH]; intros attempt; cbn [for_attempts].
  - apply preserves_ret.
  - apply preserves_bind.
    + unfold post_transcription.
      apply preserves_bind; [apply preserves_emit|]. intros _.
      apply preserves_bind; [apply world_ok_await|]. intros _.
      apply preserves_ret.
    + intros [data_text| |].
      * apply preserves_ret.
      * destruct (attempt =? retries).
        -- apply preserves_bind; [apply preserves_emit|]. intros _.
           apply preserves_ret.
        -- apply preserves_bind; [apply preserves_emit|]. intros _.
           apply preserves_bind; [apply world_ok_delay|]. intros _. apply IH.
      * apply preserves_bind; [apply preserves_emit|]. intros _.
        apply preserves_bind; [apply preserves_emit|]. intros _.
        apply preserves_ret.
Qed.

(** Rule by rule through a handler built from the steps above. *)
Ltac keep_world_ok_with known :=
  cbv zeta;
  repeat first
    [ known
    | apply preserves_ret
    | apply preserves_emit
    | apply preserves_read
    | apply world_ok_await
    | apply world_ok_delay
    | apply world_ok_setTimeout
    | apply world_ok_clearTimeout
    | apply world_ok_speakText
    | apply world_ok_timeout_callback
    | apply world_ok_for_attempts
    | apply world_ok_update; cbn; solve [auto | discriminate]
    | apply preserves_bind; [|intros ?]
    | match goal with
      | |- preserves _ (fun w => mkOutcome tt (drop_timer _ w) []) =>
          intros ? ?; now apply world_ok_drop_timer
      | |- preserves _ (match ?x with _ => _ end) => destruct x
      end ].

Ltac keep_world_ok := keep_world_ok_with fail.

Lemma world_ok_sendToGpt inputText reply : preserves world_ok (sendToGpt inputText reply).
Proof. unfold sendToGpt, post_chat. keep_world_ok. Qed.

Lemma world_ok_startRecording key script :
  preserves world_ok (startRecording key script).
Proof. unfold startRecording, getMicrophonePermission. keep_world_ok. Qed.

Lemma world_ok_stopRecording script : preserves world_ok (stopRecording script).
Proof.
  unfold stopRecording, sendAudioToWhisper.
  keep_world_ok_with ltac:(apply world_ok_sendToGpt).
Qed.

Lemma world_ok_run_callbacks due : preserves world_ok (run_callbacks due).
Proof.
  induction due as [|t due IH]; cbn [run_callbacks]; [apply preserves_ret|].
  apply preserves_bind; [apply world_ok_timeout_callback | intros _; exact IH].
Qed.

Lemma world_ok_elapse ms : preserves world_ok (elapse ms).
Proof.
  intros w (Hfresh & Hdue & Hspeaking). unfold elapse.
  apply world_ok_run_callbacks. unfold world_ok, timers_fresh in *. cbn.
  split; [|split; [|exact Hspeaking]];
    apply Forall_forall; intros t Hin; apply filter_In in Hin;
    destruct Hin as [Hin _].
  - exact (proj1 (Forall_forall _ _) Hfresh t Hin).
  - pose proof (proj1 (Forall_forall _ _) Hdue t Hin) as Ht. cbn in Ht. lia.
Qed.

Lemma world_ok_handler key e : preserves world_ok (handler key e).
Proof.
  destruct e; cbn [handler].
  - apply world_ok_startRecording.
  - apply world_ok_stopRecording.
  - unfold pressBack. keep_world_ok.
  - unfold pressRegenerate. keep_world_ok_with ltac:(apply world_ok_sendToGpt).
  - unfold pressReplay. keep_world_ok.
  - apply world_ok_speech_done.
  - apply world_ok_elapse.
Qed.

Lemma reachable_world_ok key w : reachable key w -> world_ok w.
Proof.
  induction 1 as [|w e _ IH _].
  - split; [constructor|]. split; [constructor | discriminate].
  - now apply world_ok_handler.
Qed.

(** ** A whole turn *)

(** X12. When the recording is finalised, the first upload is transcribed
    to a non-empty text and the chat endpoint answers in time, one run of
    [stopRecording] does, in this order: stop and unload, restore the audio
    mode, warm up, upload, arm the timer, warm up, ask, disarm the timer,
    speak.  The transcript is the question, the first completion is what is
    displayed and spoken, the screen ends in Speaking, and the run took the
    two warm-up delays and the two latencies. *)
Theorem a_transcript_is_answered_and_spoken
    script w rec uri transcript latency aiResponse rest :
  recording (ui w) = Some rec ->
  truthy (getURI rec) = Some uri ->
  stop_ok script = true ->
  playback_mode_ok script = true ->
  whisper_result (whisper script 1) = WhisperOk transcript ->
  transcript <> "" ->
  chat_latency (chat script) = Some latency ->
  globalDelay + latency < gpt_timeout ->
  chat_result (chat script) = ChatOk (aiResponse :: rest) ->
  let r := stopRecording script w in
  effects r
  = [StopAndUnload; SetAudioMode false;
     Delay globalDelay; PostTranscription uri;
     SetTimeout gpt_timeout; Delay globalDelay; PostChat transcript; ClearTimeout;
     Speak aiResponse]
  /\ ui (world r)
     = setAISpeaking true
         (setLoading false
            (setAIResponse true (setText aiResponse (setIsRecording false (ui w)))))
  /\ displayed_state (ui (world r)) = Some Speaking
  /\ clock (world r)
     = clock w + globalDelay + whisper_latency (whisper script 1)
       + globalDelay + latency.
Proof.
  intros Hrec Huri Hstop Hmode Hwhisper Hnonempty Hlatency Hlt Hchat.
  apply String.eqb_neq in Hnonempty.
  unfold stopRecording, sendAudioToWhisper, default_retries.
  change (N.to_nat 3) with 3%nat.
  unfold for_attempts, post_transcription.
  run_task.
  rewrite Hrec. cbn. rewrite Hstop. cbn. rewrite Hmode. cbn. rewrite Huri. cbn.
  rewrite Hwhisper. cbn. rewrite Hnonempty. cbn. rewrite Hlatency.
  match goal with |- context [?a <? ?b] =>
    replace (a <? b) with true
      by (symmetry; apply N.ltb_lt; unfold globalDelay, gpt_timeout in *; lia) end.
  cbn. rewrite Hchat. cbn.
  split; [reflexivity|]. split; [reflexivity|]. split; [reflexivity|].
  unfold globalDelay. lia.
Qed.

Lemma a_transcript_is_answered_and_spoken_witness :
  let r := stopRecording hello_script recording_world in
  effects r
  = [StopAndUnload; SetAudioMode false;
     Delay 500; PostTranscription "file:///cache/recording.wav";
     SetTimeout 10000; Delay 500; PostChat "Hello"; ClearTimeout;
     Speak "Hi there! How can I help?"]
  /\ text (ui (world r)) = "Hi there! How can I help?"
  /\ clock (world r) = 3500.
Proof.
  intros r.
  assert (Hnonempty : "Hello" <> "") by discriminate.
  assert (Hlt : globalDelay + 1800 < gpt_timeout) by reflexivity.
  pose proof (a_transcript_is_answered_and_spoken hello_script recording_world
                (mkRecording (Some "file:///cache/recording.wav"))
                "file:///cache/recording.wav" "Hello" 1800
                "Hi there! How can I help?" []
                eq_refl eq_refl eq_refl eq_refl eq_refl Hnonempty eq_refl Hlt eq_refl)
    as (Hlog & Hui & _ & Hclock).
  fold r in Hlog, Hui, Hclock.
  split; [exact Hlog|]. split; [rewrite Hui; reflexivity | exact Hclock].
Defined.

(** ** Speech and timers across handlers *)

(** X13. With handlers run one at a time, whenever [AISpeaking] is set an
    utterance is still queued with the speech engine: its [onDone] is yet
    to come, and clears the flag when it does. *)
Theorem a_set_speaking_flag_awaits_its_onDone key w :
  reachable key w ->
  AISpeaking (ui w) = true ->
  utterances w <> 0%nat
  /\ enabled SpeechDone w = true
  /\ AISpeaking (ui (world (handler key SpeechDone w))) = false.
Proof.
  intros Hreachable Hspeaking.
  destruct (reachable_world_ok key w Hreachable) as (_ & _ & Hqueued).
  specialize (Hqueued Hspeaking).
  split; [exact Hqueued|]. split; [|reflexivity].
  cbn. now destruct (utterances w).
Qed.

Lemma a_set_speaking_flag_awaits_its_onDone_witness :
  let w := world (handler demo_key (PressStop hello_script)
                    (world (handler demo_key (PressMicrophone granted_script)
                              initial_world))) in
  AISpeaking (ui w) = true
  /\ utterances w <> 0%nat
  /\ AISpeaking (ui (world (handler demo_key SpeechDone w))) = false.
Proof.
  intros w.
  assert (Hreachable : reachable demo_key w).
  { apply reachable_step; [apply reachable_step; [apply reachable_initial|]|];
      reflexivity. }
  assert (Hspeaking : AISpeaking (ui w) = true) by reflexivity.
  destruct (a_set_speaking_flag_awaits_its_onDone demo_key w Hreachable Hspeaking)
    as (Hqueued & _ & Hdone).
  split; [exact Hspeaking|]. split; [exact Hqueued | exact Hdone].
Defined.

(** X14. The converse does not hold: replaying while an utterance is
    queued hands the displayed text to the speech engine once more, and the
    first [onDone] to arrive clears [AISpeaking] although an utterance is
    still queued. *)
Theorem replay_during_speech_outlasts_the_flag w :
  utterances w <> 0%nat ->
  let replayed := pressReplay w in
  let w' := world (speech_done (world replayed)) in
  spoken (effects replayed) = [text (ui w)]
  /\ AISpeaking (ui (world replayed)) = true
  /\ AISpeaking (ui w') = false
  /\ utterances w' = utterances w
  /\ enabled SpeechDone w' = true.
Proof.
  intros Hqueued. unfold pressReplay, speakText, speech_speak, speech_done,
    bind, read, update. cbn.
  repeat split. now destruct (utterances w).
Qed.

Lemma replay_during_speech_outlasts_the_flag_witness :
  let w := world (handler demo_key (PressStop hello_script)
                    (world (handler demo_key (PressMicrophone granted_script)
                              initial_world))) in
  let w' := world (speech_done (world (pressReplay w))) in
  spoken (effects (pressReplay w)) = ["Hi there! How can I help?"]
  /\ AISpeaking (ui w') = false
  /\ utterances w' = 1%nat.
Proof.
  intros w w'.
  assert (Hqueued : utterances w <> 0%nat) by discriminate.
  pose proof (replay_during_speech_outlasts_the_flag w Hqueued)
    as (Hspoken & _ & Hflag & Hcount & _).
  split; [exact Hspoken|]. split; [exact Hflag|].
  fold w' in Hcount. rewrite Hcount. reflexivity.
Defined.

Lemma filter_all_due now (l : list Timer) :
  (forall t, In t l -> is_due now t = true) ->
  filter (is_due now) l = l /\ filter (fun t => negb (is_due now t)) l = [].
Proof.
  induction l as [|t l IH]; intros Hall; [now split|].
  cbn. rewrite (Hall t (or_introl eq_refl)). cbn.
  destruct IH as [-> ->]; [intros t' Hin; apply Hall; now right|].
  now split.
Qed.

(** X15. With handlers run one at a time, a pending timeout timer is
    never due later than ten seconds from now and its identifier is below
    the next one to be handed out; so ten quiet seconds fire every timer
    left behind by failed requests. *)
Theorem stale_timers_fire_within_ten_seconds key w :
  reachable key w ->
  Forall (fun t => deadline t <= clock w + gpt_timeout /\ timer_id t < next_timer w)
         (timers w)
  /\ timers (world (elapse gpt_timeout w)) = []
  /\ effects (elapse gpt_timeout w) = expiry_log (timers w).
Proof.
  intros Hreachable.
  destruct (reachable_world_ok key w Hreachable) as (Hfresh & Hdue & _).
  assert (Hall : forall t, In t (timers w) -> is_due (clock w + gpt_timeout) t = true).
  { intros t Hin. apply N.leb_le. exact (proj1 (Forall_forall _ _) Hdue t Hin). }
  destruct (elapse_spec gpt_timeout w) as (Hlog & Htimers & _).
  destruct (filter_all_due (clock w + gpt_timeout) (timers w) Hall) as [Hfired Hleft].
  split; [|split].
  - apply Forall_forall. intros t Hin. split.
    + exact (proj1 (Forall_forall _ _) Hdue t Hin).
    + exact (proj1 (Forall_forall _ _) Hfresh t Hin).
  - rewrite Htimers. exact Hleft.
  - rewrite Hlog, Hfired. reflexivity.
Qed.

Lemma stale_timers_fire_within_ten_seconds_witness :
  let w := world (handler demo_key (PressRegenerate refuses)
             (world (handler demo_key (PressStop hello_script)
                (world (handler demo_key (PressMicrophone granted_script)
                          initial_world))))) in
  timers w = [mkTimer 1 13500]
  /\ clock w = 4300
  /\ timers (world (elapse gpt_timeout w)) = []
  /\ effects (elapse gpt_timeout w)
     = [Abort; Alert "Timeout" "The server took too long to respond."].
Proof.
  intros w.
  assert (Hreachable : reachable demo_key w).
  { apply reachable_step;
      [apply reachable_step; [apply reachable_step; [apply reachable_initial|]|]|];
      reflexivity. }
  destruct (stale_timers_fire_within_ten_seconds demo_key w Hreachable)
    as (_ & Htimers & Hlog).
  split; [reflexivity|]. split; [reflexivity|]. split; [exact Htimers | exact Hlog].
Defined.
